(** * process-scaler: the resource-limiting supervisor of [main.py]

    A shallow embedding of [main.py] and the properties of its
    specification.  The program spawns a child process, starts a daemon
    thread that once per second re-applies a memory ceiling (on the
    supervisor's own [RLIMIT_AS]), a CPU ceiling (core affinity and
    niceness of the child) and a GPU ceiling (a placeholder), waits for the
    child and sets a [threading.Event].

    Layout:
    - [Float]    : Python's [int / int] and [int(float)], exactly;
    - the host   : what [resource], [psutil] and [subprocess] act on;
    - actuators  : [adjust_memory_limit], [adjust_cpu_limit],
                   [adjust_gpu_limit] and the policy stubs;
    - the system : the two threads of [run] and the child, as a step
                   function driven by a schedule;
    - properties. *)

From stdpp Require Import gmap strings list.
From Stdlib Require Import ZArith Lia.

#[local] Set Warnings "-clear-no-such-hyp".

Open Scope Z_scope.

(* ===================================================================== *)
(** ** Python's true division and float truncation *)
(* ===================================================================== *)

(** [num_cpus * value / 100] is a true division of two Python ints: its
    result is the binary64 number nearest to the exact quotient, ties to
    even.  A finite binary64 value is kept exactly, as [mant * 2 ^ expo]. *)
Module Float.

Record t := mk { mant : Z; expo : Z }.

(** nearest integer to [x / d] for [0 <= x], [0 < d], ties to even *)
Definition round_half_even (x d : Z) : Z :=
  let q := x / d in
  let r := x mod d in
  if 2 * r <? d then q
  else if d <? 2 * r then q + 1
  else if Z.even q then q else q + 1.

(** the fraction [a / (b * 2 ^ e)] as numerator and denominator *)
Definition scale (a b e : Z) : Z * Z :=
  if 0 <=? e then (a, b * 2 ^ e) else (a * 2 ^ (- e), b).

(** the exponent [e] with [2^52 <= a / (b * 2^e) < 2^53], for [0 < a, b] *)
Definition exponent (a b : Z) : Z :=
  let l := Z.log2 a - Z.log2 b in
  let '(n, d) := scale a b (l - 52) in
  if 2 ^ 52 * d <=? n then l - 52 else l - 53.

(** the quotient of two positive ints, rounded to 53 significant bits *)
Definition div_pos (a b : Z) : t :=
  let e := exponent a b in
  let '(n, d) := scale a b e in
  mk (round_half_even n d) e.

(** [a / b] for ints [a] and [0 < b]; [None] is Python's
    [OverflowError: integer division result too large for a float].
    (No quotient of an int by [100] is small enough to be subnormal.) *)
Definition true_div (a b : Z) : option t :=
  if a =? 0 then Some (mk 0 0)
  else
    let f := div_pos (Z.abs a) b in
    if (0 <=? expo f) && (2 ^ 1024 <=? mant f * 2 ^ expo f) then None
    else Some (mk (Z.sgn a * mant f) (expo f)).

(** [int(f)]: truncation toward zero *)
Definition trunc (f : t) : Z :=
  if 0 <=? expo f then mant f * 2 ^ expo f
  else Z.quot (mant f) (2 ^ (- expo f)).

End Float.

(** Line 24: [max(1, int(num_cpus * value / 100))]. *)
Definition num_cores (num_cpus value : Z) : option Z :=
  f ← Float.true_div (num_cpus * value) 100;
  Some (Z.max 1 (Float.trunc f)).

(* ===================================================================== *)
(** ** Exceptions and the host the program runs on *)
(* ===================================================================== *)

Definition pid := nat.

(** The Python exceptions the calls of [main.py] can end in. *)
Inductive exn :=
| ValueError (msg : string)       (* resource.setrlimit: EINVAL / EPERM *)
| OverflowError                   (* int too large for a C long, a float or a list *)
| MemoryError                     (* no memory for list(range(n)) *)
| TypeError                       (* None * value *)
| AttributeError                  (* no Process.cpu_affinity on this platform *)
| IndexError                      (* Popen([]) *)
| FileNotFoundError (exe : string)
| PermissionError (exe : string)
| NoSuchProcess (p : pid)         (* psutil *)
| AccessDenied (p : pid).         (* psutil *)

Inductive result (A : Type) :=
| Ok (a : A)
| Raise (e : exn).
Arguments Ok {A} a.
Arguments Raise {A} e.

(** A child is running, or has exited and waits to be reaped. *)
Inductive pstate :=
| Running
| Exited (code : Z).

Record proc_info := ProcInfo {
  p_state : pstate;
  p_exit : Z;                 (* the code its program ends with *)
  p_affinity : gset nat;      (* eligible logical CPUs *)
  p_nice : Z;                 (* niceness: larger is lower priority *)
  p_rlimit : Z * Z            (* its own RLIMIT_AS, soft and hard *)
}.

Definition with_state (st : pstate) (i : proc_info) : proc_info :=
  ProcInfo st (p_exit i) (p_affinity i) (p_nice i) (p_rlimit i).
Definition with_affinity (a : gset nat) (i : proc_info) : proc_info :=
  ProcInfo (p_state i) (p_exit i) a (p_nice i) (p_rlimit i).
Definition with_nice (n : Z) (i : proc_info) : proc_info :=
  ProcInfo (p_state i) (p_exit i) (p_affinity i) n (p_rlimit i).

(** What the executable named by a command line is. *)
Inductive exe :=
| Missing                              (* ENOENT *)
| Forbidden                            (* EACCES *)
| Runs (code : list string → Z).       (* runs and ends with [code args] *)

Record Host := MkHost {
  cpu_count : option Z;     (* psutil.cpu_count(logical=True); None if undetermined *)
  affinity_api : bool;      (* whether psutil.Process has cpu_affinity here *)
  superuser : bool;         (* may raise a hard limit or a priority *)
  rlim_cur : Z;             (* RLIMIT_AS of the supervisor itself: soft, *)
  rlim_max : Z;             (*   hard; the kernel's unsigned 64-bit rlim_t *)
  self_nice : Z;            (* niceness of the supervisor, inherited by a child *)
  exes : string → exe;
  procs : gmap pid proc_info;
  next_pid : pid;
  list_capacity : Z;        (* the longest list the interpreter has memory for *)
  cpuset : gset nat         (* the CPUs the cpuset of the supervisor permits *)
}.

Definition set_rlimit (cur max : Z) (h : Host) : Host :=
  MkHost (cpu_count h) (affinity_api h) (superuser h) cur max
         (self_nice h) (exes h) (procs h) (next_pid h) (list_capacity h) (cpuset h).

Definition set_procs (ps : gmap pid proc_info) (h : Host) : Host :=
  MkHost (cpu_count h) (affinity_api h) (superuser h) (rlim_cur h) (rlim_max h)
         (self_nice h) (exes h) ps (next_pid h) (list_capacity h) (cpuset h).

Definition set_next_pid (n : pid) (h : Host) : Host :=
  MkHost (cpu_count h) (affinity_api h) (superuser h) (rlim_cur h) (rlim_max h)
         (self_nice h) (exes h) (procs h) n (list_capacity h) (cpuset h).

(** Calls that act on the host: they return a value or raise, and in both
    cases leave a host behind (what was done before a raise stays done). *)
Definition io (A : Type) : Type := Host → result A * Host.

Definition io_ret {A} (a : A) : io A := λ h, (Ok a, h).
Definition raise {A} (e : exn) : io A := λ h, (Raise e, h).
Definition io_bind {A B} (k : A → io B) (m : io A) : io B :=
  λ h, match m h with
       | (Ok a, h') => k a h'
       | (Raise e, h') => (Raise e, h')
       end.
Definition get_host : io Host := λ h, (Ok h, h).
Definition put_host (h' : Host) : io unit := λ _, (Ok tt, h').

#[global] Instance io_mret : MRet io := @io_ret.
#[global] Instance io_mbind : MBind io := @io_bind.

(* --------------------------------------------------------------------- *)
(** *** [resource]: the address-space limit of the calling process *)
(* --------------------------------------------------------------------- *)

(** [resource.RLIM_INFINITY] as Python shows it; the kernel's is [2^64 - 1]. *)
Definition RLIM_INFINITY : Z := -1.

(** The C conversions of the [resource] module on 64-bit Linux: a limit is
    read as a signed 64-bit integer and given to the kernel unsigned. *)
Definition in_long (v : Z) : bool := (- 2 ^ 63 <=? v) && (v <? 2 ^ 63).
Definition py2rlim (v : Z) : Z := v mod 2 ^ 64.
Definition rlim2py (u : Z) : Z :=
  let u' := u mod 2 ^ 64 in if u' <? 2 ^ 63 then u' else u' - 2 ^ 64.

(** [resource.getrlimit(resource.RLIMIT_AS)] *)
Definition getrlimit : io (Z * Z) :=
  λ h, (Ok (rlim2py (rlim_cur h), rlim2py (rlim_max h)), h).

(** [resource.setrlimit(resource.RLIMIT_AS, (cur, max))]: [ValueError] when
    the soft limit exceeds the hard one, or when the hard limit is raised
    without the privilege. *)
Definition setrlimit (lim : Z * Z) : io unit :=
  let '(cur, max) := lim in
  if negb (in_long cur && in_long max) then raise OverflowError
  else
    h ← get_host;
    if py2rlim max <? py2rlim cur then
      raise (ValueError "current limit exceeds maximum limit")
    else if (rlim_max h mod 2 ^ 64 <? py2rlim max) && negb (superuser h) then
      raise (ValueError "not allowed to raise maximum limit")
    else put_host (set_rlimit (py2rlim cur) (py2rlim max) h).

(* --------------------------------------------------------------------- *)
(** *** [psutil]: the process table *)
(* --------------------------------------------------------------------- *)

(** [psutil.Process(pid)] and every later call on it raise [NoSuchProcess]
    once the pid has left the table. *)
Definition find_process (p : pid) : io proc_info :=
  h ← get_host;
  match procs h !! p with
  | Some i => mret i
  | None => raise (NoSuchProcess p)
  end.

Definition update_process (p : pid) (i : proc_info) : io unit :=
  h ← get_host; put_host (set_procs (<[p := i]> (procs h)) h).

(** [psutil.cpu_count(logical=True)]; [None * value] is a [TypeError]. *)
Definition psutil_cpu_count : io Z :=
  h ← get_host;
  match cpu_count h with
  | Some n => mret n
  | None => raise TypeError
  end.

(** the elements of [range(n)] *)
Definition py_range (n : Z) : list nat := seq 0 (Z.to_nat n).

(** [list(range(n))]: a range longer than [sys.maxsize] has no length, and
    the list has to fit the memory of the interpreter. *)
Definition py_list_range (n : Z) : io (list nat) :=
  h ← get_host;
  if 2 ^ 63 <=? n then raise OverflowError
  else if list_capacity h <? n then raise MemoryError
  else mret (py_range n).

(** the logical CPUs the host has *)
Definition online (h : Host) : gset nat :=
  list_to_set (py_range (default 0 (cpu_count h))).

(** the CPUs a process of this supervisor may be given: those the host has
    and the cpuset permits *)
Definition eligible (h : Host) : gset nat := online h ∩ cpuset h.

(** The attribute [p.cpu_affinity]: missing where the platform has no
    affinity control. *)
Definition cpu_affinity_attr : io unit :=
  h ← get_host;
  if negb (affinity_api h) then raise AttributeError else mret tt.

(** The call [p.cpu_affinity(cpus)]: the kernel keeps the requested CPUs
    that are eligible and refuses a request that names none. *)
Definition cpu_affinity (p : pid) (cpus : list nat) : io unit :=
  h ← get_host;
  i ← find_process p;
  let mask : gset nat := list_to_set cpus ∩ eligible h in
  if decide (mask = ∅) then raise (ValueError "invalid CPU")
  else update_process p (with_affinity mask i).

(** [p.nice(value)]: [setpriority] to the absolute niceness [value];
    making a process less nice needs the privilege. *)
Definition nice (p : pid) (value : Z) : io unit :=
  h ← get_host;
  i ← find_process p;
  if (value <? p_nice i) && negb (superuser h) then raise (AccessDenied p)
  else update_process p (with_nice value i).

(* ===================================================================== *)
(** ** The actuators and the limit policy ([main.py], lines 9-47) *)
(* ===================================================================== *)

(** Lines 9-14.  [process] is not used: the limit set is the supervisor's. *)
Definition adjust_memory_limit (process : pid) (value : Z) : io unit :=
  '(soft, hard) ← getrlimit;
  setrlimit (value, hard).

(** Lines 17-30. *)
Definition adjust_cpu_limit (process : pid) (value : Z) : io unit :=
  _ ← find_process process;
  num_cpus ← psutil_cpu_count;
  match num_cores num_cpus value with
  | None => raise OverflowError
  | Some n =>
      cpu_affinity_attr;;
      cpus ← py_list_range n;
      cpu_affinity process cpus;;
      nice process 10
  end.

(** Lines 33-35. *)
Definition adjust_gpu_limit (process : pid) (value : Z) : io unit :=
  mret tt.

Definition get_max_memory : Z := 1024 * 1024 * 1024.
Definition get_max_cpu : Z := 50.
Definition get_max_gpu : Z := 50.

(* --------------------------------------------------------------------- *)
(** *** [subprocess]: creating the child *)
(* --------------------------------------------------------------------- *)

(** [subprocess.Popen(argv)]: the child gets a fresh pid and inherits the
    niceness and the address-space limits the supervisor has at that
    moment; it may run on every CPU the supervisor may. *)
Definition Popen (argv : list string) : io pid :=
  match argv with
  | [] => raise IndexError
  | name :: args =>
      h ← get_host;
      match exes h name with
      | Missing => raise (FileNotFoundError name)
      | Forbidden => raise (PermissionError name)
      | Runs code =>
          let p := next_pid h in
          let i := ProcInfo Running (code args) (eligible h) (self_nice h)
                            (rlim_cur h, rlim_max h) in
          put_host (set_next_pid (S p) (set_procs (<[p := i]> (procs h)) h));;
          mret p
      end
  end.

(* ===================================================================== *)
(** ** The running system: [run], the monitor thread and the child *)
(* ===================================================================== *)

Inductive dim := Memory | Cpu | Gpu.

(** What an observer of the program can see happen, in order. *)
Inductive event :=
| EvSpawn (p : pid)               (* Popen returned p *)
| EvThreadStart                   (* monitor_thread.start() *)
| EvChildExit (p : pid) (code : Z)
| EvWait (p : pid) (code : Z)     (* proc.wait() returned code *)
| EvSet                           (* process_finished.set() *)
| EvIsSet (b : bool)              (* process_finished.is_set() gave b *)
| EvQuery (d : dim) (v : Z)       (* get_max_*() gave v *)
| EvApply (d : dim) (v : Z)       (* adjust_*_limit(process, v) is called *)
| EvSleep (secs : Z).             (* time.sleep(secs) *)

Inductive pyval :=
| PyNone
| PyInt (n : Z).

(** Where the main thread is: the statement of [run] it executes next. *)
Inductive main_pc :=
| MainPopen (argv : list string)  (* line 65 *)
| MainEvent                       (* line 68 *)
| MainThread                      (* lines 71-74 *)
| MainWait                        (* line 77 *)
| MainSet                         (* line 80 *)
| MainReturned (v : pyval)        (* run() has returned v *)
| MainRaised (e : exn)            (* run() has raised e *)
| MainExited (status : Z).        (* the interpreter is gone *)

(** Where the monitor thread is in [monitor_memory_and_cpu], with the
    ceilings it has read and not yet applied. *)
Inductive mon_pc :=
| MonNotStarted
| MonCheck                        (* line 51 *)
| MonGetMemory                    (* line 52 *)
| MonGetCpu (m : Z)               (* line 53 *)
| MonGetGpu (m c : Z)             (* line 54 *)
| MonMem (m c g : Z)              (* line 56 *)
| MonCpu (c g : Z)                (* line 57 *)
| MonGpu (g : Z)                  (* line 58 *)
| MonSleep                        (* line 60 *)
| MonStopped                      (* the loop was left, the thread is over *)
| MonRaised (e : exn).            (* an exception ended the thread *)

Record Sys := MkSys {
  host : Host;
  log : list event;
  flag : bool;                    (* process_finished *)
  proc : option pid;              (* proc / process *)
  main : main_pc;
  mon : mon_pc
}.

Definition init (h : Host) (argv : list string) : Sys :=
  MkSys h [] false None (MainPopen argv) MonNotStarted.

(** [run], one statement at a time.  [None]: the thread cannot move
    ([proc.wait()] blocks while the child runs; nothing after the exit). *)
Definition run_step (s : Sys) : option Sys :=
  match main s with
  | MainPopen argv =>
      match Popen argv (host s) with
      | (Ok p, h') =>
          Some (MkSys h' (log s ++ [EvSpawn p]) (flag s) (Some p) MainEvent (mon s))
      | (Raise e, h') =>
          Some (MkSys h' (log s) (flag s) (proc s) (MainRaised e) (mon s))
      end
  | MainEvent =>
      Some (MkSys (host s) (log s) false (proc s) MainThread (mon s))
  | MainThread =>
      Some (MkSys (host s) (log s ++ [EvThreadStart]) (flag s) (proc s)
                  MainWait MonCheck)
  | MainWait =>
      p ← proc s;
      i ← procs (host s) !! p;
      match p_state i with
      | Running => None
      | Exited code =>
          Some (MkSys (set_procs (delete p (procs (host s))) (host s))
                      (log s ++ [EvWait p code]) (flag s) (proc s)
                      MainSet (mon s))
      end
  | MainSet =>
      Some (MkSys (host s) (log s ++ [EvSet]) true (proc s)
                  (MainReturned PyNone) (mon s))
  | MainReturned _ =>
      Some (MkSys (host s) (log s) (flag s) (proc s) (MainExited 0) (mon s))
  | MainRaised _ =>
      Some (MkSys (host s) (log s) (flag s) (proc s) (MainExited 1) (mon s))
  | MainExited _ => None
  end.

(** The monitor calls an actuator: the call is recorded, its effect on the
    host is kept, and a raise ends the thread, as nothing catches it.  A
    call is one step: no other thread moves inside it. *)
Definition call (s : Sys) (ev : event) (f : io unit) (next : mon_pc) : Sys :=
  match f (host s) with
  | (Ok _, h') => MkSys h' (log s ++ [ev]) (flag s) (proc s) (main s) next
  | (Raise e, h') =>
      MkSys h' (log s ++ [ev]) (flag s) (proc s) (main s) (MonRaised e)
  end.

Definition is_exited (m : main_pc) : bool :=
  match m with MainExited _ => true | _ => false end.

(** [monitor_memory_and_cpu], one statement at a time.  The thread is a
    daemon: it moves no more once the interpreter is gone. *)
Definition monitor_memory_and_cpu_step (s : Sys) : option Sys :=
  if is_exited (main s) then None
  else
    match mon s with
    | MonNotStarted => None
    | MonCheck =>
        Some (MkSys (host s) (log s ++ [EvIsSet (flag s)]) (flag s) (proc s)
                    (main s) (if flag s then MonStopped else MonGetMemory))
    | MonGetMemory =>
        Some (MkSys (host s) (log s ++ [EvQuery Memory get_max_memory])
                    (flag s) (proc s) (main s) (MonGetCpu get_max_memory))
    | MonGetCpu m =>
        Some (MkSys (host s) (log s ++ [EvQuery Cpu get_max_cpu])
                    (flag s) (proc s) (main s) (MonGetGpu m get_max_cpu))
    | MonGetGpu m c =>
        Some (MkSys (host s) (log s ++ [EvQuery Gpu get_max_gpu])
                    (flag s) (proc s) (main s) (MonMem m c get_max_gpu))
    | MonMem m c g =>
        p ← proc s;
        Some (call s (EvApply Memory m) (adjust_memory_limit p m) (MonCpu c g))
    | MonCpu c g =>
        p ← proc s;
        Some (call s (EvApply Cpu c) (adjust_cpu_limit p c) (MonGpu g))
    | MonGpu g =>
        p ← proc s;
        Some (call s (EvApply Gpu g) (adjust_gpu_limit p g) MonSleep)
    | MonSleep =>
        Some (MkSys (host s) (log s ++ [EvSleep 1]) (flag s) (proc s)
                    (main s) MonCheck)
    | MonStopped => None
    | MonRaised _ => None
    end.

(** The child ends on its own, with the code of its program. *)
Definition child_step (p : pid) (s : Sys) : option Sys :=
  i ← procs (host s) !! p;
  match p_state i with
  | Running =>
      let i' := with_state (Exited (p_exit i)) i in
      Some (MkSys (set_procs (<[p := i']> (procs (host s))) (host s))
                  (log s ++ [EvChildExit p (p_exit i)]) (flag s) (proc s)
                  (main s) (mon s))
  | Exited _ => None
  end.

Inductive tid :=
| TMain
| TMon
| TChild (p : pid).

Definition step (t : tid) (s : Sys) : option Sys :=
  match t with
  | TMain => run_step s
  | TMon => monitor_memory_and_cpu_step s
  | TChild p => child_step p s
  end.

(** An execution: the threads move in the order the schedule gives. *)
Fixpoint exec (sched : list tid) (s : Sys) : option Sys :=
  match sched with
  | [] => Some s
  | t :: sched' => s' ← step t s; exec sched' s'
  end.

(** The exit status of the program, once the interpreter has exited. *)
Definition exit_status (s : Sys) : option Z :=
  match main s with MainExited n => Some n | _ => None end.

(** The value [run()] returned, once it has. *)
Definition returned (s : Sys) : option pyval :=
  match main s with MainReturned v => Some v | _ => None end.

(* ===================================================================== *)
(** ** Vocabulary of the statements *)
(* ===================================================================== *)

(** The soft and hard limit as [resource.getrlimit] shows them. *)
Definition soft_limit (h : Host) : Z := rlim2py (rlim_cur h).
Definition hard_limit (h : Host) : Z := rlim2py (rlim_max h).

(** The mask a request for the first [n] CPUs leaves a process with. *)
Definition prefix_mask (n : Z) (h : Host) : gset nat :=
  list_to_set (py_range n) ∩ eligible h.

(** What [list(range(n))] raises on a host, if anything. *)
Definition list_range_error (n : Z) (h : Host) : option exn :=
  if 2 ^ 63 <=? n then Some OverflowError
  else if list_capacity h <? n then Some MemoryError
  else None.

(** The hard limit as the kernel holds it: an unsigned number of bytes, of
    which the largest, [2^64 - 1], is [RLIM_INFINITY]. *)
Definition kernel_hard_limit (h : Host) : Z := rlim_max h mod 2 ^ 64.

(** The events of the monitor thread. *)
Definition is_mon_event (e : event) : bool :=
  match e with
  | EvIsSet _ | EvQuery _ _ | EvApply _ _ | EvSleep _ => true
  | _ => false
  end.

Definition is_apply (e : event) : bool :=
  match e with EvApply _ _ => true | _ => false end.

Definition mon_events (l : list event) : list event := filter is_mon_event l.
Definition applications (l : list event) : list event := filter is_apply l.

(** What one full turn of the loop of [monitor_memory_and_cpu] records. *)
Definition cycle_events : list event :=
  [EvIsSet false;
   EvQuery Memory get_max_memory; EvQuery Cpu get_max_cpu; EvQuery Gpu get_max_gpu;
   EvApply Memory get_max_memory; EvApply Cpu get_max_cpu; EvApply Gpu get_max_gpu;
   EvSleep 1].

(** A state an execution of the program can be in. *)
Definition reachable (h : Host) (argv : list string) (s : Sys) : Prop :=
  ∃ sched, exec sched (init h argv) = Some s.

(** Example hosts: eight logical CPUs, all of them permitted, memory for a
    list of [2^20] elements, an unprivileged user, a program [job] that ends
    with code 3, a file [secret] that may not be executed. *)
Definition demo_exes (name : string) : exe :=
  if String.eqb name "job" then Runs (λ _, 3)
  else if String.eqb name "secret" then Forbidden
  else Missing.

Definition demo_host (api : bool) (hard : Z) : Host :=
  MkHost (Some 8) api false hard hard 0 demo_exes ∅ 100%nat
         (2 ^ 20) (list_to_set (py_range 8)).

(** an unlimited address space: both limits are the kernel's RLIM_INFINITY *)
Definition linux_host : Host := demo_host true (2 ^ 64 - 1).
(** a hard limit of 512 MiB, below the ceiling of 1 GiB the policy gives *)
Definition capped_host : Host := demo_host true (2 ^ 29).
(** a platform without affinity control *)
Definition plain_host : Host := demo_host false (2 ^ 64 - 1).

(** a host on which process 7 already runs at niceness 10 *)
Definition niced_host : Host :=
  set_procs {[ 7%nat := ProcInfo Running 0 (list_to_set (py_range 4)) 10
                                  (2 ^ 64 - 1, 2 ^ 64 - 1) ]}
            linux_host.

(** [run] is past the start of the monitor thread and has not raised. *)
Definition started (m : main_pc) : Prop :=
  m = MainWait ∨ m = MainSet ∨ m = MainReturned PyNone ∨ m = MainExited 0.

(** [proc.wait()] has returned. *)
Definition waited (m : main_pc) : Prop :=
  m = MainSet ∨ m = MainReturned PyNone ∨ m = MainExited 0.

Definition is_set_event (e : event) : bool :=
  match e with EvSet => true | _ => false end.

Definition is_wait_event (e : event) : bool :=
  match e with EvWait _ _ => true | _ => false end.

(** how often the flag was set *)
Definition count_set (l : list event) : nat := length (filter is_set_event l).

(** [proc.wait()] has returned in this log *)
Definition has_wait (l : list event) : Prop := ∃ p code, EvWait p code ∈ l.

(** Every [EvSet] of a log comes after an [EvWait]. *)
Definition set_after_wait (l : list event) : Prop :=
  ∀ pre post, l = pre ++ EvSet :: post → has_wait pre.

(** What holds of the control state in every state of an execution. *)
Record inv (s : Sys) : Prop := MkInv {
  inv_started : mon s ≠ MonNotStarted → started (main s);
  inv_flag : flag s = true ↔ main s = MainReturned PyNone ∨ main s = MainExited 0;
  inv_returned : ∀ v, main s = MainReturned v → v = PyNone;
  inv_proc : main s = MainEvent ∨ main s = MainThread ∨ started (main s) →
             is_Some (proc s);
  inv_set_once : count_set (log s) = if flag s then 1%nat else 0%nat;
  inv_waited : waited (main s) → has_wait (log s);
  inv_set_after_wait : set_after_wait (log s);
  inv_stopped : mon s = MonStopped ↔ EvIsSet true ∈ log s;
  inv_observed : EvIsSet true ∈ log s → flag s = true;
  inv_ceilings :
    match mon s with
    | MonGetCpu m => m = get_max_memory
    | MonGetGpu m c => m = get_max_memory ∧ c = get_max_cpu
    | MonMem m c g => m = get_max_memory ∧ c = get_max_cpu ∧ g = get_max_gpu
    | MonCpu c g => c = get_max_cpu ∧ g = get_max_gpu
    | MonGpu g => g = get_max_gpu
    | _ => True
    end
}.

(** In a log: the child [p] ends with [code], and later [proc.wait()]
    returns that code. *)
Definition exited_waited (p : pid) (code : Z) (l : list event) : Prop :=
  ∃ l1 l2 l3, l = l1 ++ EvChildExit p code :: l2 ++ EvWait p code :: l3.

(** ... and later still the flag is set. *)
Definition exited_waited_set (p : pid) (code : Z) (l : list event) : Prop :=
  ∃ l1 l2 l3 l4,
    l = l1 ++ EvChildExit p code :: l2 ++ EvWait p code :: l3 ++ EvSet :: l4.

(** [run] is past line 77, and past line 80. *)
Definition past_wait (m : main_pc) : Prop :=
  m = MainSet ∨ (∃ v, m = MainReturned v) ∨ m = MainExited 0.
Definition past_set (m : main_pc) : Prop :=
  (∃ v, m = MainReturned v) ∨ m = MainExited 0.

(** What holds of the child and the log in every state of an execution: an
    exit of the child is on record; [proc.wait()] has returned only after
    it, and the flag was set only after that. *)
Record exit_inv (s : Sys) : Prop := MkExitInv {
  ei_exited : ∀ p i code,
    proc s = Some p → procs (host s) !! p = Some i → p_state i = Exited code →
    EvChildExit p code ∈ log s;
  ei_waited : past_wait (main s) →
    ∃ p code, proc s = Some p ∧ exited_waited p code (log s);
  ei_set : past_set (main s) →
    ∃ p code, proc s = Some p ∧ exited_waited_set p code (log s)
}.

(** The actuator calls the cycle in progress still has to make. *)
Definition in_flight (m : mon_pc) : nat :=
  match m with
  | MonGetMemory | MonGetCpu _ | MonGetGpu _ _ | MonMem _ _ _ => 3
  | MonCpu _ _ => 2
  | MonGpu _ => 1
  | _ => 0
  end.

(** The monitor events of the cycle in progress, by the place in the loop;
    a thread ended by a raise has recorded the call that raised. *)
Definition partial_of (m : mon_pc) (l : list event) : Prop :=
  match m with
  | MonNotStarted | MonCheck => l = []
  | MonGetMemory => l = take 1 cycle_events
  | MonGetCpu _ => l = take 2 cycle_events
  | MonGetGpu _ _ => l = take 3 cycle_events
  | MonMem _ _ _ => l = take 4 cycle_events
  | MonCpu _ _ => l = take 5 cycle_events
  | MonGpu _ => l = take 6 cycle_events
  | MonSleep => l = take 7 cycle_events
  | MonStopped => l = [EvIsSet true]
  | MonRaised _ =>
      l = take 5 cycle_events ∨ l = take 6 cycle_events ∨ l = take 7 cycle_events
  end.

(** The monitor events of a log are whole cycles and then [part]. *)
Definition cycles_then (part : list event) (l : list event) : Prop :=
  ∃ k : nat, mon_events l = mjoin (replicate k cycle_events) ++ part.

(** A turn of the loop begins when the flag is read unset. *)
Definition is_cycle_start (e : event) : bool :=
  match e with EvIsSet false => true | _ => false end.

Definition cycles_begun (l : list event) : nat := length (filter is_cycle_start l).

(** The monitor thread is over: it left the loop or an exception ended it. *)
Definition mon_over (m : mon_pc) : Prop := m = MonStopped ∨ ∃ e, m = MonRaised e.

(** The statements the monitor thread can still execute once the flag is
    set: the rest of the turn in progress and the read of the flag. *)
Definition steps_left (m : mon_pc) : nat :=
  match m with
  | MonGetMemory => 8
  | MonGetCpu _ => 7
  | MonGetGpu _ _ => 6
  | MonMem _ _ _ => 5
  | MonCpu _ _ => 4
  | MonGpu _ => 3
  | MonSleep => 2
  | MonCheck => 1
  | MonNotStarted | MonStopped | MonRaised _ => 0
  end.

Definition is_mon_tid (t : tid) : bool :=
  match t with TMon => true | _ => false end.

(** how many steps of a schedule are the monitor's *)
Definition mon_steps (sched : list tid) : nat := length (filter is_mon_tid sched).

(** Lines 52-58: the actuator calls of one turn of the loop, in sequence. *)
Definition cycle_body (process : pid) : io unit :=
  let max_memory_bytes := get_max_memory in
  let max_cpu_percent := get_max_cpu in
  let max_gpu_percent := get_max_gpu in
  adjust_memory_limit process max_memory_bytes;;
  adjust_cpu_limit process max_cpu_percent;;
  adjust_gpu_limit process max_gpu_percent.

(** [run] can be brought to the exit of the interpreter, with status 0, by
    steps of [run] and of the children alone. *)
Definition can_finish (s : Sys) : Prop :=
  ∃ sched s', exec sched s = Some s' ∧ main s' = MainExited 0 ∧
              mon_steps sched = 0%nat.

(* ===================================================================== *)
(** ** Properties *)
(* ===================================================================== *)

Ltac io_unfold :=
  unfold mbind, mret, io_mbind, io_mret, io_bind, io_ret, raise, get_host,
    put_host in *; cbn beta iota.

(* --------------------------------------------------------------------- *)
(** *** The core count *)
(* --------------------------------------------------------------------- *)

Example num_cores_8_50 : num_cores 8 50 = Some 4.
Proof. reflexivity. Qed.

Example num_cores_8_1 : num_cores 8 1 = Some 1.
Proof. reflexivity. Qed.

Example num_cores_4_100 : num_cores 4 100 = Some 4.
Proof. reflexivity. Qed.

Example num_cores_3_50 : num_cores 3 50 = Some 1.
Proof. reflexivity. Qed.

Section FloatFacts.
Import Float.

Lemma round_half_even_bounds x d :
  0 <= x → 0 < d →
  x / d <= round_half_even x d ∧ 2 * d * round_half_even x d <= 2 * x + d.
Proof.
  intros Hx Hd. unfold round_half_even.
  pose proof (Z.div_mod x d ltac:(lia)) as Hdm.
  pose proof (Z.mod_pos_bound x d Hd) as Hr.
  destruct (Z.ltb_spec (2 * (x mod d)) d);
    [|destruct (Z.ltb_spec d (2 * (x mod d)));
      [|destruct (Z.even (x / d))]]; lia.
Qed.

(** With at least six fractional bits the rounding never reaches the next
    integer: a fraction of at most 99/100 is more than half a unit in the
    last place away from it. *)
Lemma round_then_trunc a P :
  0 <= a → 64 <= P → round_half_even (a * P) 100 / P = a / 100.
Proof.
  intros Ha HP.
  destruct (round_half_even_bounds (a * P) 100) as [Hlo Hhi]; [nia | lia |].
  pose proof (Z.div_mod a 100 ltac:(lia)) as Hdm.
  pose proof (Z.mod_pos_bound a 100 ltac:(lia)) as Hr.
  set (k := a / 100) in *. set (r := a mod 100) in *.
  set (m := round_half_even (a * P) 100) in *.
  assert (HaP : a * P = 100 * (k * P) + r * P) by (rewrite Hdm; ring).
  assert (HrP : 0 <= r * P <= 99 * P) by nia.
  assert (Hk : k * P <= a * P / 100).
  { apply Z.div_le_lower_bound; lia. }
  symmetry. apply Z.div_unique with (r := m - k * P); lia.
Qed.

Lemma exponent_small a :
  0 < a < 100 * 2 ^ 47 → exponent a 100 <= -6.
Proof.
  intros [Ha0 Ha]. unfold exponent, scale.
  change (Z.log2 100) with 6.
  assert (Hl : Z.log2 a < 54).
  { apply Z.log2_lt_pow2; lia. }
  destruct (Z.leb_spec 0 (Z.log2 a - 6 - 52)); [lia|].
  destruct (Z.leb_spec (2 ^ 52 * 100) (a * 2 ^ (- (Z.log2 a - 6 - 52)))); [|lia].
  destruct (Z.eq_dec (Z.log2 a) 53) as [E|]; [|lia].
  rewrite E in *. change (2 ^ (- (53 - 6 - 52))) with 32 in *. lia.
Qed.

Lemma true_div_100_trunc a :
  0 <= a < 100 * 2 ^ 47 →
  ∃ f, true_div a 100 = Some f ∧ trunc f = a / 100.
Proof.
  intros [Ha0 Ha]. unfold true_div.
  destruct (Z.eqb_spec a 0) as [->|Hne].
  { eexists; split; [reflexivity|]. reflexivity. }
  assert (He := exponent_small a ltac:(lia)).
  rewrite Z.abs_eq by lia. unfold div_pos, scale.
  set (e := exponent a 100) in *.
  assert (Hneg : (0 <=? e) = false) by (apply Z.leb_gt; lia).
  rewrite Hneg. cbn [expo mant]. rewrite Hneg. cbn [andb].
  eexists; split; [reflexivity|].
  unfold trunc; cbn [expo mant]. rewrite Hneg.
  rewrite Z.sgn_pos, Z.mul_1_l by lia.
  assert (HP : 64 <= 2 ^ (- e)).
  { change 64 with (2 ^ 6). apply Z.pow_le_mono_r; lia. }
  rewrite Z.quot_div_nonneg.
  - apply round_then_trunc; lia.
  - destruct (round_half_even_bounds (a * 2 ^ (- e)) 100) as [Hlo _]; [nia|lia|].
    etransitivity; [|exact Hlo]. apply Z.div_pos; nia.
  - lia.
Qed.

Lemma num_cores_floor n p :
  0 <= n * p < 100 * 2 ^ 47 → num_cores n p = Some (Z.max 1 (n * p / 100)).
Proof.
  intros H. unfold num_cores.
  destruct (true_div_100_trunc (n * p) H) as (f & -> & <-). reflexivity.
Qed.
End FloatFacts.

(* --------------------------------------------------------------------- *)
(** *** The limits of [resource] *)
(* --------------------------------------------------------------------- *)

Lemma rlim2py_nonneg u :
  0 <= rlim2py u → rlim2py u = u mod 2 ^ 64 ∧ rlim2py u < 2 ^ 63.
Proof.
  unfold rlim2py. pose proof (Z.mod_pos_bound u (2 ^ 64) ltac:(lia)).
  destruct (Z.ltb_spec (u mod 2 ^ 64) (2 ^ 63)); lia.
Qed.

Lemma rlim2py_in_long u : in_long (rlim2py u) = true.
Proof.
  unfold in_long, rlim2py. pose proof (Z.mod_pos_bound u (2 ^ 64) ltac:(lia)).
  destruct (Z.ltb_spec (u mod 2 ^ 64) (2 ^ 63)); apply andb_true_intro; split; lia.
Qed.

Lemma py2rlim_rlim2py u : py2rlim (rlim2py u) = u mod 2 ^ 64.
Proof.
  unfold py2rlim, rlim2py. pose proof (Z.mod_pos_bound u (2 ^ 64) ltac:(lia)).
  destruct (Z.ltb_spec (u mod 2 ^ 64) (2 ^ 63)).
  - apply Z.mod_small. lia.
  - symmetry. apply Z.mod_unique with (q := -1); lia.
Qed.

Lemma rlim2py_small u : 0 <= u < 2 ^ 63 → rlim2py u = u.
Proof.
  intros Hu. unfold rlim2py. rewrite Z.mod_small by lia.
  destruct (Z.ltb_spec u (2 ^ 63)); lia.
Qed.

Lemma rlim2py_mod u : rlim2py (u mod 2 ^ 64) = rlim2py u.
Proof. unfold rlim2py. rewrite Z.mod_mod by lia. reflexivity. Qed.

(** What [adjust_memory_limit] does, case by case: the hard limit read is
    given back unchanged, so only the first refusal of [setrlimit] is left. *)
Lemma adjust_memory_limit_unfold process value h :
  adjust_memory_limit process value h =
  if negb (in_long value) then (Raise OverflowError, h)
  else if rlim_max h mod 2 ^ 64 <? py2rlim value
       then (Raise (ValueError "current limit exceeds maximum limit"), h)
       else (Ok tt, set_rlimit (py2rlim value) (rlim_max h mod 2 ^ 64) h).
Proof.
  unfold adjust_memory_limit, getrlimit, setrlimit. io_unfold.
  rewrite rlim2py_in_long, andb_true_r.
  destruct (in_long value); [|reflexivity]. cbn [negb].
  rewrite py2rlim_rlim2py, Z.ltb_irrefl. cbn [andb].
  destruct (_ <? _); reflexivity.
Qed.

(** An unlimited hard limit permits every ceiling that fits a C long, and
    [-1] is [RLIM_INFINITY] itself. *)
Example unlimited_accepts_infinity :
  (adjust_memory_limit 7%nat RLIM_INFINITY linux_host).1 = Ok tt.
Proof. reflexivity. Qed.

(** The hard limit the kernel holds is the one [resource.getrlimit] shows,
    where that is not negative; [RLIM_INFINITY] is the largest there is. *)
Lemma kernel_hard_limit_shown h :
  0 <= hard_limit h → kernel_hard_limit h = hard_limit h.
Proof.
  intros H. unfold kernel_hard_limit. symmetry.
  apply (rlim2py_nonneg (rlim_max h)). exact H.
Qed.

Lemma kernel_hard_limit_infinity h :
  hard_limit h = RLIM_INFINITY → kernel_hard_limit h = 2 ^ 64 - 1.
Proof.
  unfold hard_limit, kernel_hard_limit, rlim2py, RLIM_INFINITY.
  pose proof (Z.mod_pos_bound (rlim_max h) (2 ^ 64) ltac:(lia)).
  destruct (Z.ltb_spec (rlim_max h mod 2 ^ 64) (2 ^ 63)); lia.
Qed.

(** C5, as stated, fails for a ceiling that does not fit a C long: under an
    unlimited hard limit every [B >= 0] is within the limit, and for
    [B = 2^63] the call raises [OverflowError] and the soft limit is not
    [B]. *)
Lemma memory_ceiling_overflow :
  hard_limit linux_host = RLIM_INFINITY ∧
  0 <= 2 ^ 63 <= kernel_hard_limit linux_host ∧
  adjust_memory_limit 7%nat (2 ^ 63) linux_host = (Raise OverflowError, linux_host) ∧
  soft_limit (adjust_memory_limit 7%nat (2 ^ 63) linux_host).2 ≠ 2 ^ 63.
Proof.
  split; [reflexivity|]. split; [split; vm_compute; discriminate|].
  split; [reflexivity|]. vm_compute. discriminate.
Qed.

(** C5 (amended): for every ceiling [B] that fits a C long,
    [0 <= B < 2^63], and does not exceed the hard limit the kernel holds
    (an unlimited hard limit permits every such [B]), [adjust_memory_limit]
    succeeds, the soft limit of the calling process becomes exactly [B],
    the hard limit stays what it was, and nothing else of the host
    changes. *)
Theorem memory_ceiling_frame (h : Host) (process : pid) (B : Z) :
  0 <= B < 2 ^ 63 → B <= kernel_hard_limit h →
  adjust_memory_limit process B h = (Ok tt, set_rlimit B (kernel_hard_limit h) h) ∧
  soft_limit (set_rlimit B (kernel_hard_limit h) h) = B ∧
  hard_limit (set_rlimit B (kernel_hard_limit h) h) = hard_limit h ∧
  (0 <= rlim_max h < 2 ^ 64 →
   rlim_max (set_rlimit B (kernel_hard_limit h) h) = rlim_max h).
Proof.
  intros HB Hhard. unfold soft_limit, hard_limit, kernel_hard_limit in *.
  cbn [set_rlimit rlim_cur rlim_max].
  rewrite (rlim2py_small B), rlim2py_mod by lia.
  repeat split; [|intros; apply Z.mod_small; lia].
  rewrite adjust_memory_limit_unfold.
  assert (Hin : in_long B = true).
  { unfold in_long. apply andb_true_intro. split; lia. }
  rewrite Hin. cbn [negb]. unfold py2rlim. rewrite (Z.mod_small B) by lia.
  destruct (Z.ltb_spec (rlim_max h mod 2 ^ 64) B); [lia|reflexivity].
Qed.

Lemma memory_ceiling_frame_witness :
  hard_limit linux_host = RLIM_INFINITY ∧
  soft_limit (adjust_memory_limit 7%nat get_max_memory linux_host).2 = get_max_memory.
Proof.
  split; [reflexivity|].
  destruct (memory_ceiling_frame linux_host 7%nat get_max_memory) as (-> & Hs & _);
    [vm_compute; split; [discriminate|reflexivity] | vm_compute; discriminate |].
  exact Hs.
Defined.

(* --------------------------------------------------------------------- *)
(** *** The CPU actuator *)
(* --------------------------------------------------------------------- *)

(** What [adjust_cpu_limit] does, case by case. *)
Lemma adjust_cpu_limit_unfold process value h :
  adjust_cpu_limit process value h =
  match procs h !! process with
  | None => (Raise (NoSuchProcess process), h)
  | Some i =>
    match cpu_count h with
    | None => (Raise TypeError, h)
    | Some num_cpus =>
      match num_cores num_cpus value with
      | None => (Raise OverflowError, h)
      | Some n =>
        if negb (affinity_api h) then (Raise AttributeError, h)
        else
          match list_range_error n h with
          | Some e => (Raise e, h)
          | None =>
            if decide (prefix_mask n h = ∅)
            then (Raise (ValueError "invalid CPU"), h)
            else
              let i1 := with_affinity (prefix_mask n h) i in
              if (10 <? p_nice i) && negb (superuser h)
              then (Raise (AccessDenied process),
                    set_procs (<[process := i1]> (procs h)) h)
              else (Ok tt, set_procs (<[process := with_nice 10 i1]> (procs h)) h)
          end
      end
    end
  end.
Proof.
  unfold adjust_cpu_limit, find_process, psutil_cpu_count, cpu_affinity_attr,
    py_list_range, list_range_error, cpu_affinity, nice,
    update_process, find_process, prefix_mask. io_unfold.
  destruct (procs h !! process) as [i|] eqn:Hi; [|reflexivity].
  destruct (cpu_count h) as [n|] eqn:Hn; [|reflexivity].
  destruct (num_cores n value) as [k|]; [|reflexivity]. io_unfold.
  destruct (affinity_api h); [|reflexivity]. cbn [negb].
  destruct (2 ^ 63 <=? k); [reflexivity|].
  destruct (list_capacity h <? k); [reflexivity|].
  rewrite Hi.
  destruct (decide _); [reflexivity|].
  cbn [procs set_procs superuser]. rewrite lookup_insert_eq. cbn [p_nice with_affinity].
  destruct (_ && _); [reflexivity|].
  unfold set_procs; cbn. rewrite insert_insert_eq. reflexivity.
Qed.

Lemma elem_of_py_range (c : nat) n : c ∈ py_range n ↔ Z.of_nat c < n.
Proof. unfold py_range. rewrite elem_of_seq. lia. Qed.

Lemma elem_of_eligible (c : nat) h n :
  cpu_count h = Some n → c ∈ eligible h ↔ Z.of_nat c < n ∧ c ∈ cpuset h.
Proof.
  intros Hc. unfold eligible, online. rewrite Hc. cbn.
  rewrite elem_of_intersection, elem_of_list_to_set, elem_of_py_range. done.
Qed.

Lemma elem_of_prefix_mask (c : nat) k h n :
  cpu_count h = Some n →
  c ∈ prefix_mask k h ↔ Z.of_nat c < k ∧ Z.of_nat c < n ∧ c ∈ cpuset h.
Proof.
  intros Hc. unfold prefix_mask.
  rewrite elem_of_intersection, elem_of_list_to_set, elem_of_py_range,
    (elem_of_eligible c h n Hc). done.
Qed.

Lemma prefix_mask_within n h num_cpus :
  cpu_count h = Some num_cpus → n <= num_cpus →
  list_to_set (py_range n) ⊆ cpuset h →
  prefix_mask n h = list_to_set (py_range n).
Proof.
  intros Hc Hn Hset. apply set_eq. intros c.
  rewrite (elem_of_prefix_mask c n h num_cpus Hc), elem_of_list_to_set, elem_of_py_range.
  split; [tauto|]. intros Hlt. repeat split; [assumption | lia |].
  apply Hset. rewrite elem_of_list_to_set, elem_of_py_range. exact Hlt.
Qed.

Lemma prefix_mask_nonempty n h num_cpus :
  cpu_count h = Some num_cpus → 1 <= num_cpus → 1 <= n → 0%nat ∈ cpuset h →
  prefix_mask n h ≠ ∅.
Proof.
  intros Hc Hcpus Hn H0 Hempty.
  assert (Hin : 0%nat ∈ prefix_mask n h).
  { rewrite (elem_of_prefix_mask 0 n h num_cpus Hc). repeat split; [lia | lia | exact H0]. }
  rewrite Hempty in Hin. set_solver.
Qed.

(** The count is at most the number of CPUs for a percent up to 100. *)
Lemma cores_le_cpus n p : 1 <= n → 0 <= p <= 100 → 1 <= Z.max 1 (n * p / 100) <= n.
Proof.
  intros Hn Hp. split; [lia|]. apply Z.max_lub; [lia|].
  apply Z.div_le_upper_bound; [lia|].
  rewrite (Z.mul_comm 100 n). apply Z.mul_le_mono_nonneg_l; lia.
Qed.

Lemma list_range_error_none k h :
  k < 2 ^ 63 → k <= list_capacity h → list_range_error k h = None.
Proof.
  intros Hk Hcap. unfold list_range_error.
  destruct (Z.leb_spec (2 ^ 63) k); [lia|].
  destruct (Z.ltb_spec (list_capacity h) k); [lia|reflexivity].
Qed.

(** The bound on the CPU count in C3 is where floats stop being exact:
    for [100 * 2^47 + 99] CPUs and 1 percent the float nearest to
    [140737488355328.99] is [140737488355329], one more than the floor.  No
    host has that many CPUs. *)
Example num_cores_beyond_float :
  num_cores (100 * 2 ^ 47 + 99) 1 = Some 140737488355329 ∧
  Z.max 1 ((100 * 2 ^ 47 + 99) * 1 / 100) = 140737488355328.
Proof. vm_compute. split; reflexivity. Qed.

(** C3: for every count [n] of logical CPUs, [1 <= n] (and below [2^47], as
    every count a host reports is), and every integer percent
    [0 <= p <= 100], the count computed at line 24 is
    [max 1 (floor (n * p / 100))]; and where the call at line 27 gets
    through - the process exists, the platform has affinity control, the
    list of CPUs fits the memory and its CPUs are permitted to the process -
    the actuator leaves the process eligible for exactly the CPUs
    [0 .. count - 1]. *)
Theorem cpu_core_count (h : Host) (process : pid) (n p : Z) (i : proc_info) :
  cpu_count h = Some n → 1 <= n < 2 ^ 47 → 0 <= p <= 100 →
  let cores := Z.max 1 (n * p / 100) in
  num_cores n p = Some cores ∧
  (procs h !! process = Some i → affinity_api h = true →
   cores <= list_capacity h → list_to_set (py_range cores) ⊆ cpuset h →
   ∃ i', procs (adjust_cpu_limit process p h).2 !! process = Some i' ∧
         p_affinity i' = list_to_set (py_range cores) ∧
         ∀ c : nat, c ∈ p_affinity i' ↔ Z.of_nat c < cores).
Proof.
  intros Hn Hn1 Hp cores.
  assert (Hnp0 : 0 <= n * p) by (apply Z.mul_nonneg_nonneg; lia).
  assert (Hnp : n * p < 100 * 2 ^ 47) by nia.
  assert (Hcores : num_cores n p = Some cores) by (apply num_cores_floor; lia).
  split; [exact Hcores|]. intros Hi Hapi Hcap Hset.
  destruct (cores_le_cpus n p) as [Hge Hle]; [lia | lia |]. fold cores in Hge, Hle.
  assert (Hmask : prefix_mask cores h = list_to_set (py_range cores))
    by (eapply prefix_mask_within; eauto).
  assert (Hne : prefix_mask cores h ≠ ∅).
  { apply (prefix_mask_nonempty cores h n Hn); [lia | lia |].
    apply Hset. rewrite elem_of_list_to_set, elem_of_py_range. lia. }
  rewrite adjust_cpu_limit_unfold, Hi, Hn, Hcores, Hapi. cbn [negb].
  rewrite (list_range_error_none cores h) by lia.
  destruct (decide _) as [E|_]; [contradiction|]. cbn zeta.
  destruct (_ && _); cbn [snd procs set_procs]; rewrite lookup_insert_eq;
    eexists; (split; [reflexivity|]); cbn [p_affinity with_affinity with_nice];
    rewrite Hmask; (split; [reflexivity|]);
    intros c; rewrite elem_of_list_to_set; apply elem_of_py_range.
Qed.

Lemma cpu_core_count_witness :
  num_cores 8 50 = Some 4 ∧
  ∃ i', procs (adjust_cpu_limit 7%nat 50 niced_host).2 !! 7%nat = Some i' ∧
        p_affinity i' = list_to_set (py_range 4).
Proof.
  destruct (cpu_core_count niced_host 7%nat 8 50
              (ProcInfo Running 0 (list_to_set (py_range 4)) 10
                        (2 ^ 64 - 1, 2 ^ 64 - 1)))
    as (Hc & Haff); [reflexivity | lia | lia |].
  split; [exact Hc|].
  destruct Haff as (i' & Hi' & Ha & _);
    [reflexivity | reflexivity | vm_compute; discriminate | |].
  - change (cpuset niced_host) with (list_to_set (py_range 8) : gset nat).
    change (Z.max 1 (8 * 50 / 100)) with 4.
    intros c. rewrite !elem_of_list_to_set, !elem_of_py_range. lia.
  - exists i'. split; [exact Hi'|exact Ha].
Defined.

(** C9, as stated, fails on a process that is already at niceness 10 (as
    the child is from the second cycle on): the call succeeds and the
    priority is what it was, not one notch lower. *)
Lemma priority_not_lowered_again :
  ∃ h', adjust_cpu_limit 7%nat get_max_cpu niced_host = (Ok tt, h') ∧
        p_nice <$> procs niced_host !! 7%nat = Some 10 ∧
        p_nice <$> procs h' !! 7%nat = Some 10.
Proof. eexists. repeat split; vm_compute; reflexivity. Qed.

(** C9 (amended): every invocation of the CPU actuator that succeeds has
    set the niceness of the process to the absolute value 10, whatever it
    was, after restricting the affinity; an invocation that is refused the
    priority change has restricted the affinity already and leaves the
    niceness as it was. *)
Theorem priority_set_to_below_normal
    (h h' : Host) (process : pid) (value : Z) (r : result unit) :
  adjust_cpu_limit process value h = (r, h') →
  (r = Ok tt →
   ∃ i n, procs h !! process = Some i ∧
          procs h' !! process = Some (with_nice 10 (with_affinity (prefix_mask n h) i)) ∧
          (p_nice i <= 10 ∨ superuser h = true)) ∧
  (r = Raise (AccessDenied process) →
   ∃ i n, procs h !! process = Some i ∧ 10 < p_nice i ∧
          procs h' !! process = Some (with_affinity (prefix_mask n h) i)).
Proof.
  rewrite adjust_cpu_limit_unfold.
  destruct (procs h !! process) as [i|] eqn:Hi;
    [|intros [= <- <-]; split; discriminate].
  destruct (cpu_count h) as [num_cpus|]; [|intros [= <- <-]; split; discriminate].
  destruct (num_cores num_cpus value) as [n|];
    [|intros [= <- <-]; split; discriminate].
  destruct (negb (affinity_api h)); [intros [= <- <-]; split; discriminate|].
  unfold list_range_error.
  destruct (2 ^ 63 <=? n); [intros [= <- <-]; split; discriminate|].
  destruct (list_capacity h <? n); [intros [= <- <-]; split; discriminate|].
  destruct (decide _); [intros [= <- <-]; split; discriminate|]. cbn zeta.
  destruct (Z.ltb_spec 10 (p_nice i)) as [Hnice|Hnice];
    [destruct (superuser h) eqn:Hsu|]; cbn [andb negb];
    intros [= <- <-]; (split; [|try discriminate]); try discriminate; intros _;
    exists i, n; cbn [procs set_procs]; rewrite lookup_insert_eq; auto.
Qed.

Lemma priority_set_to_below_normal_witness :
  ∃ i n, procs niced_host !! 7%nat = Some i ∧
         procs (adjust_cpu_limit 7%nat 50 niced_host).2 !! 7%nat
         = Some (with_nice 10 (with_affinity (prefix_mask n niced_host) i)).
Proof.
  destruct (priority_set_to_below_normal niced_host
              (adjust_cpu_limit 7%nat 50 niced_host).2 7%nat 50 (Ok tt))
    as [Hok _]; [vm_compute; reflexivity|].
  destruct (Hok eq_refl) as (i & n & Hi & Hi' & _).
  exists i, n. split; [exact Hi|exact Hi'].
Defined.

(** C10: applying [adjust_cpu_limit] a second time with the same percent
    changes nothing and ends as the first application did: the affinity is
    the same prefix and the niceness is set to 10 again, not lowered
    further. *)
Theorem adjust_cpu_limit_idempotent (h : Host) (process : pid) (value : Z) :
  let once := adjust_cpu_limit process value h in
  adjust_cpu_limit process value once.2 = once ∧
  (once.1 = Ok tt → p_nice <$> procs once.2 !! process = Some 10).
Proof.
  cbn zeta. rewrite (adjust_cpu_limit_unfold process value h).
  destruct (procs h !! process) as [i|] eqn:Hi.
  2: { cbn [fst snd]. rewrite adjust_cpu_limit_unfold, Hi. split; [reflexivity|discriminate]. }
  destruct (cpu_count h) as [num_cpus|] eqn:Hc.
  2: { cbn [fst snd]. rewrite adjust_cpu_limit_unfold, Hi, Hc. split; [reflexivity|discriminate]. }
  destruct (num_cores num_cpus value) as [n|] eqn:Hn.
  2: { cbn [fst snd]. rewrite adjust_cpu_limit_unfold, Hi, Hc, Hn. split; [reflexivity|discriminate]. }
  destruct (affinity_api h) eqn:Hapi; cbn [negb].
  2: { cbn [fst snd]. rewrite adjust_cpu_limit_unfold, Hi, Hc, Hn, Hapi. split; [reflexivity|discriminate]. }
  destruct (list_range_error n h) as [e|] eqn:Hl.
  { cbn [fst snd]. rewrite adjust_cpu_limit_unfold, Hi, Hc, Hn, Hapi, Hl.
    split; [reflexivity|discriminate]. }
  destruct (decide (prefix_mask n h = ∅)) as [He|He].
  { cbn [fst snd]. rewrite adjust_cpu_limit_unfold, Hi, Hc, Hn, Hapi, Hl. cbn [negb].
    destruct (decide _); [|contradiction]. split; [reflexivity|discriminate]. }
  cbn zeta.
  destruct (Z.ltb_spec 10 (p_nice i)) as [Hnice|Hnice];
    [destruct (superuser h) eqn:Hsu|]; cbn [andb negb fst snd];
    rewrite adjust_cpu_limit_unfold; cbn [procs set_procs cpu_count affinity_api superuser];
    rewrite lookup_insert_eq, Hc, Hn, Hapi; cbn [negb];
    change (list_range_error n (set_procs ?ps h)) with (list_range_error n h);
    rewrite Hl;
    change (prefix_mask n (set_procs ?ps h)) with (prefix_mask n h);
    (destruct (decide (prefix_mask n h = ∅)); [contradiction|]);
    cbn zeta; cbn [p_nice with_nice with_affinity p_state p_exit p_affinity];
    rewrite ?Hsu; cbn [andb negb].
  - rewrite Z.ltb_irrefl. cbn [andb]. rewrite insert_insert_eq.
    split; [reflexivity|]. intros _. reflexivity.
  - destruct (Z.ltb_spec 10 (p_nice i)); [|lia]. cbn [andb].
    rewrite insert_insert_eq. split; [reflexivity|discriminate].
  - rewrite Z.ltb_irrefl. cbn [andb]. rewrite insert_insert_eq.
    split; [reflexivity|]. intros _. reflexivity.
Qed.

(* --------------------------------------------------------------------- *)
(** *** Executions *)
(* --------------------------------------------------------------------- *)

Lemma exec_app a b s : exec (a ++ b) s = exec a s ≫= exec b.
Proof.
  revert s. induction a as [|t a IH]; intros s; cbn; [reflexivity|].
  destruct (step t s) as [s1|]; cbn; [apply IH|reflexivity].
Qed.

Lemma exec_snoc a t s s' :
  exec (a ++ [t]) s = Some s' ↔ ∃ s1, exec a s = Some s1 ∧ step t s1 = Some s'.
Proof.
  rewrite exec_app. destruct (exec a s) as [s1|]; cbn.
  - destruct (step t s1) as [s2|] eqn:E; cbn; split.
    + intros [= <-]. eauto.
    + intros (? & [= <-] & H). congruence.
    + discriminate.
    + intros (? & [= <-] & H). congruence.
  - split; [discriminate|]. intros (? & ? & _). discriminate.
Qed.

Lemma reachable_init h argv : reachable h argv (init h argv).
Proof. exists []. reflexivity. Qed.

Lemma reachable_step h argv t s s' :
  reachable h argv s → step t s = Some s' → reachable h argv s'.
Proof.
  intros [sched Hs] Ht. exists (sched ++ [t]). apply exec_snoc. eauto.
Qed.

Lemma reachable_exec h argv sched s s' :
  reachable h argv s → exec sched s = Some s' → reachable h argv s'.
Proof.
  intros [sched0 Hs] Hs'. exists (sched0 ++ sched).
  rewrite exec_app, Hs. exact Hs'.
Qed.

(** Induction over the states of the executions from [init h argv]. *)
Lemma reachable_ind (P : Sys → Prop) h argv :
  P (init h argv) →
  (∀ t s s', reachable h argv s → P s → step t s = Some s' → P s') →
  ∀ s, reachable h argv s → P s.
Proof.
  intros H0 Hstep s [sched Hs]. revert s Hs.
  induction sched as [|t sched IH] using rev_ind; intros s Hs.
  - cbn in Hs. by simplify_eq.
  - apply exec_snoc in Hs as (s1 & Hs1 & Ht).
    eapply Hstep; [exists sched; exact Hs1 | eauto | exact Ht].
Qed.

(** Case analysis of one step: which statement ran, with what outcome. *)
Ltac step_cases H :=
  repeat match type of H with
  | None = Some _ => discriminate H
  | Some _ = Some _ => injection H as H
  | mbind _ ?o = Some _ =>
      let E := fresh "E" in destruct o eqn:E; cbn [mbind option_bind] in H
  | context [match ?x with _ => _ end] =>
      let E := fresh "E" in destruct x eqn:E
  end.

Ltac thread_inv H :=
  match type of H with
  | _ = Some ?s' =>
      unfold run_step, monitor_memory_and_cpu_step, child_step, call in H;
      step_cases H; subst s'; cbn [host log flag proc main mon] in *
  end.

Ltac step_inv H :=
  match type of H with
  | step ?t _ = Some _ => destruct t; cbn [step] in H; thread_inv H
  end.

(** Facts about the state a concrete execution ends in are learned by
    evaluating the execution, once per fact. *)
Ltac run_fact Hs f :=
  match type of Hs with
  | ?e = Some ?s =>
      let v := eval vm_compute in (f <$> e) in
      match v with
      | Some ?x =>
          let H := fresh "Hf" in
          assert (H : f <$> e = Some x) by (vm_compute; reflexivity);
          rewrite Hs in H; change (Some (f s) = Some x) in H;
          injection H as H
      end
  end.

Ltac run_state Hs :=
  match goal with
  | |- context [exec ?sched ?s0] =>
      destruct (exec sched s0) as [?s|] eqn:Hs;
      [| vm_compute in Hs; discriminate Hs]
  end.

Lemma snoc_eq_app_set (l pre post : list event) (e : event) :
  l ++ [e] = pre ++ EvSet :: post →
  (∃ post', post = post' ++ [e] ∧ l = pre ++ EvSet :: post') ∨
  (post = [] ∧ e = EvSet ∧ l = pre).
Proof.
  destruct post as [|x post _] using rev_ind; intros H.
  - right. apply app_inj_tail in H as [-> ->]. auto.
  - left. exists post. change (pre ++ EvSet :: post ++ [x])
      with (pre ++ (EvSet :: post) ++ [x]) in H.
    rewrite app_assoc in H. apply app_inj_tail in H as [-> ->]. auto.
Qed.

Lemma set_after_wait_snoc l e :
  set_after_wait l → (e = EvSet → has_wait l) → set_after_wait (l ++ [e]).
Proof.
  intros Hl He pre post H.
  apply snoc_eq_app_set in H as [(post' & -> & ->)|(-> & -> & ->)].
  - eapply Hl. reflexivity.
  - auto.
Qed.

Lemma has_wait_snoc l e : has_wait l → has_wait (l ++ [e]).
Proof. intros (p & c & H). exists p, c. apply elem_of_app. auto. Qed.

Lemma has_wait_here l p code : has_wait (l ++ [EvWait p code]).
Proof. exists p, code. apply elem_of_app. right. apply list_elem_of_singleton. done. Qed.

Lemma count_set_snoc l e :
  count_set (l ++ [e]) = (count_set l + if is_set_event e then 1 else 0)%nat.
Proof.
  unfold count_set. rewrite filter_app, length_app. f_equal.
  destruct e; reflexivity.
Qed.

Lemma elem_of_snoc {A} (l : list A) (x e : A) : x ∈ l ++ [e] ↔ x ∈ l ∨ x = e.
Proof. rewrite elem_of_app, list_elem_of_singleton. done. Qed.

Lemma inv_init h argv : inv (init h argv).
Proof.
  split; cbn; try done.
  - split; [done|]. intros [?|?]; done.
  - unfold started. naive_solver.
  - unfold waited. naive_solver.
  - intros [|??] ? ?; discriminate.
  - split; [done|]. intros ?%elem_of_nil. done.
  - intros ?%elem_of_nil. done.
Qed.

(** Each part of [inv] is kept by a step; a part needs few of the others. *)
Ltac inv_focus :=
  match goal with
  | Hst : _ → started _, Hfl : _ ↔ _ ∨ _, Hret : ∀ v : pyval, _,
    Hpr : _ → is_Some _, Hset : count_set _ = _, Hw : _ → has_wait _,
    Hsw : set_after_wait _, Hsp : _ ↔ _ ∈ _, Hob : _ ∈ _ → _ |- _ =>
      match goal with
      | |- _ → started _ => clear - Hst
      | |- _ = true ↔ _ => clear - Hfl Hret
      | |- ∀ v : pyval, _ => clear - Hret
      | |- _ → is_Some _ => clear - Hpr Hret
      | |- count_set _ = _ => clear - Hset Hfl
      | |- _ → has_wait _ => clear - Hw Hret
      | |- set_after_wait _ => clear - Hsw Hw
      | |- _ ↔ _ ∈ _ => clear - Hsp Hst
      | |- _ ∈ _ → _ => clear - Hob Hfl
      | |- _ => idtac
      end
  end.

Ltac inv_solve :=
  try match goal with
      | H : ∀ v, MainReturned _ = MainReturned v → v = PyNone |- _ =>
          pose proof (H _ eq_refl); subst
      end;
  unfold started, waited in *;
  rewrite ?count_set_snoc, ?elem_of_snoc in *; cbn [is_set_event];
  match goal with
  | |- _ → has_wait (_ ++ [EvWait _ _]) => intros _; apply has_wait_here
  | |- set_after_wait (_ ++ [_]) =>
      apply set_after_wait_snoc; [assumption | intuition discriminate]
  | |- _ =>
      solve [ intuition (try discriminate; try congruence;
                         eauto using has_wait_snoc; try lia) ]
  | s : Sys |- _ =>
      destruct (flag s);
      solve [ intuition (try discriminate; try congruence; eauto; try lia) ]
  end.

Lemma inv_step t s s' : inv s → step t s = Some s' → inv s'.
Proof.
  intros [Hst Hfl Hret Hpr Hset Hw Hsw Hsp Hob Hc] H.
  step_inv H.
  all: split; cbn [host log flag proc main mon].
  all: inv_focus; inv_solve.
Qed.

Lemma reachable_inv h argv s : reachable h argv s → inv s.
Proof.
  apply (reachable_ind inv); [apply inv_init|].
  intros t s1 s2 _ Hs1 Ht. exact (inv_step t s1 s2 Hs1 Ht).
Qed.

(* --------------------------------------------------------------------- *)
(** *** What a step leaves alone *)
(* --------------------------------------------------------------------- *)

Lemma Popen_unfold argv h :
  Popen argv h =
  match argv with
  | [] => (Raise IndexError, h)
  | name :: args =>
      match exes h name with
      | Missing => (Raise (FileNotFoundError name), h)
      | Forbidden => (Raise (PermissionError name), h)
      | Runs code =>
          let p := next_pid h in
          let i := ProcInfo Running (code args) (eligible h) (self_nice h)
                            (rlim_cur h, rlim_max h) in
          (Ok p, set_next_pid (S p) (set_procs (<[p := i]> (procs h)) h))
      end
  end.
Proof.
  destruct argv as [|name args]; [reflexivity|].
  unfold Popen. io_unfold. destruct (exes h name); reflexivity.
Qed.

Lemma Popen_raise_exes h1 h2 h1' argv e :
  exes h1 = exes h2 → Popen argv h1 = (Raise e, h1') → Popen argv h2 = (Raise e, h2).
Proof.
  intros Hex. rewrite !Popen_unfold. destruct argv as [|name args].
  - intros [= <- _]. reflexivity.
  - rewrite Hex. destruct (exes h2 name); cbn zeta; intros [= <- _] || intros [=]; reflexivity.
Qed.

Lemma Popen_ok_exes h1 h2 h1' argv p :
  exes h1 = exes h2 → Popen argv h1 = (Ok p, h1') →
  ∃ p' h2', Popen argv h2 = (Ok p', h2').
Proof.
  intros Hex. rewrite !Popen_unfold. destruct argv as [|name args]; [discriminate|].
  rewrite Hex. destruct (exes h2 name); cbn zeta; try discriminate. eauto.
Qed.

Lemma Popen_exes argv h : exes (Popen argv h).2 = exes h.
Proof.
  rewrite Popen_unfold. destruct argv as [|name args]; [reflexivity|].
  destruct (exes h name); reflexivity.
Qed.

Lemma Popen_ok_child argv h p h' i :
  Popen argv h = (Ok p, h') → procs h' !! p = Some i → p_state i = Running.
Proof.
  rewrite Popen_unfold. destruct argv as [|name args]; [discriminate|].
  destruct (exes h name); try discriminate. cbn zeta. intros [= <- <-].
  cbn [procs set_next_pid set_procs]. rewrite lookup_insert_eq. intros [= <-]. reflexivity.
Qed.

Lemma adjust_memory_limit_exes p v h : exes (adjust_memory_limit p v h).2 = exes h.
Proof. rewrite adjust_memory_limit_unfold. repeat case_match; reflexivity. Qed.

Lemma adjust_cpu_limit_exes p v h : exes (adjust_cpu_limit p v h).2 = exes h.
Proof. rewrite adjust_cpu_limit_unfold. repeat case_match; reflexivity. Qed.

Lemma step_exes t s s' : step t s = Some s' → exes (host s') = exes (host s).
Proof.
  intros H. step_inv H; try reflexivity.
  all: match goal with
       | E : Popen ?a ?h = _ |- _ => rewrite <- (Popen_exes a h), E
       | E : adjust_memory_limit ?p ?v ?h = _ |- _ =>
           rewrite <- (adjust_memory_limit_exes p v h), E
       | E : adjust_cpu_limit ?p ?v ?h = _ |- _ =>
           rewrite <- (adjust_cpu_limit_exes p v h), E
       | E : adjust_gpu_limit ?p ?v ?h = _ |- _ => injection E as _ <-
       end; reflexivity.
Qed.

Lemma reachable_exes h argv s : reachable h argv s → exes (host s) = exes h.
Proof.
  apply (reachable_ind (λ s, exes (host s) = exes h)); [reflexivity|].
  intros t s1 s2 _ IH Ht. rewrite (step_exes _ _ _ Ht). exact IH.
Qed.

(** Until [Popen] has run, the command line is the one given. *)
Lemma reachable_popen h argv s a :
  reachable h argv s → main s = MainPopen a → a = argv.
Proof.
  intros Hs. revert a.
  apply (reachable_ind (λ s, ∀ a, main s = MainPopen a → a = argv)) with (h := h) (argv := argv);
    [cbn; congruence | | exact Hs].
  clear s Hs. intros t s s' _ IH Ht a. step_inv Ht; try discriminate; eauto.
Qed.

Lemma mon_events_snoc l e :
  mon_events (l ++ [e]) = mon_events l ++ (if is_mon_event e then [e] else []).
Proof.
  unfold mon_events. rewrite filter_app. f_equal. destruct e; reflexivity.
Qed.

Lemma applications_snoc l e :
  applications (l ++ [e]) = applications l ++ (if is_apply e then [e] else []).
Proof.
  unfold applications. rewrite filter_app. f_equal. destruct e; reflexivity.
Qed.

Lemma adjust_memory_limit_procs p v h : procs (adjust_memory_limit p v h).2 = procs h.
Proof. rewrite adjust_memory_limit_unfold. repeat case_match; reflexivity. Qed.

(** The CPU actuator changes the affinity and the niceness of its process,
    never whether a process runs. *)
Lemma adjust_cpu_limit_states p v h q :
  p_state <$> procs (adjust_cpu_limit p v h).2 !! q = p_state <$> procs h !! q.
Proof.
  rewrite adjust_cpu_limit_unfold.
  destruct (procs h !! p) as [i|] eqn:Hi; [|reflexivity].
  repeat case_match; try reflexivity; cbn [snd procs set_procs];
    (destruct (decide (p = q)) as [<-|Hne];
     [rewrite lookup_insert_eq, Hi | rewrite lookup_insert_ne by assumption]);
    reflexivity.
Qed.

Lemma adjust_memory_limit_keeps p v h r h' q :
  adjust_memory_limit p v h = (r, h') →
  p_state <$> procs h' !! q = p_state <$> procs h !! q.
Proof.
  intros E. pose proof (adjust_memory_limit_procs p v h) as H.
  rewrite E in H. cbn [snd] in H. rewrite H. reflexivity.
Qed.

Lemma adjust_cpu_limit_keeps p v h r h' q :
  adjust_cpu_limit p v h = (r, h') →
  p_state <$> procs h' !! q = p_state <$> procs h !! q.
Proof.
  intros E. pose proof (adjust_cpu_limit_states p v h q) as H.
  rewrite E in H. exact H.
Qed.

(** A step of the monitor thread leaves [run] and the flag alone, and ends
    no process. *)
Lemma mon_step_frame s s1 :
  monitor_memory_and_cpu_step s = Some s1 →
  main s1 = main s ∧ flag s1 = flag s ∧
  ∀ q, p_state <$> procs (host s1) !! q = p_state <$> procs (host s) !! q.
Proof.
  intros Ht. thread_inv Ht; repeat split; try reflexivity; intros q;
    eauto using adjust_memory_limit_keeps, adjust_cpu_limit_keeps.
Qed.

(** Each step of the monitor thread records one event and leaves the
    process handle alone. *)
Lemma mon_step_log s s1 :
  monitor_memory_and_cpu_step s = Some s1 →
  proc s1 = proc s ∧ ∃ e, log s1 = log s ++ [e].
Proof. intros Ht. thread_inv Ht; split; eauto. Qed.

(* --------------------------------------------------------------------- *)
(** *** The exit of the child, the wait and the flag *)
(* --------------------------------------------------------------------- *)

Lemma exited_waited_snoc p code l e :
  exited_waited p code l → exited_waited p code (l ++ [e]).
Proof.
  intros (l1 & l2 & l3 & ->). exists l1, l2, (l3 ++ [e]).
  rewrite <- !app_assoc. cbn. rewrite <- !app_assoc. reflexivity.
Qed.

Lemma exited_waited_set_snoc p code l e :
  exited_waited_set p code l → exited_waited_set p code (l ++ [e]).
Proof.
  intros (l1 & l2 & l3 & l4 & ->). exists l1, l2, l3, (l4 ++ [e]).
  rewrite <- !app_assoc. cbn. rewrite <- !app_assoc. cbn.
  rewrite <- !app_assoc. reflexivity.
Qed.

Lemma exited_waited_here p code l :
  EvChildExit p code ∈ l → exited_waited p code (l ++ [EvWait p code]).
Proof.
  intros (l1 & l2 & ->)%list_elem_of_split. exists l1, l2, [].
  rewrite <- !app_assoc. reflexivity.
Qed.

Lemma exited_waited_set_here p code l :
  exited_waited p code l → exited_waited_set p code (l ++ [EvSet]).
Proof.
  intros (l1 & l2 & l3 & ->). exists l1, l2, l3, [].
  rewrite <- !app_assoc. cbn. rewrite <- !app_assoc. reflexivity.
Qed.

Lemma exit_inv_init h argv : exit_inv (init h argv).
Proof.
  split; cbn.
  - discriminate.
  - unfold past_wait. intros [?|[[? ?]|?]]; discriminate.
  - unfold past_set. intros [[? ?]|?]; discriminate.
Qed.

Lemma exit_inv_mon s s1 :
  exit_inv s → monitor_memory_and_cpu_step s = Some s1 → exit_inv s1.
Proof.
  intros [He Hw Hs] Ht.
  destruct (mon_step_frame _ _ Ht) as (Hmain & _ & Hst).
  destruct (mon_step_log _ _ Ht) as (Hproc & e & Hlog).
  split; rewrite ?Hmain, Hproc, Hlog.
  - intros p i code Hp Hi Hc. apply elem_of_app. left.
    pose proof (Hst p) as Hq. rewrite Hi in Hq. cbn in Hq.
    destruct (procs (host s) !! p) as [i0|] eqn:Hi0; [|discriminate Hq].
    injection Hq as Hq. apply (He p i0 code Hp Hi0). congruence.
  - intros Hm. destruct (Hw Hm) as (p & code & Hp & Hl).
    exists p, code. split; [exact Hp|]. apply exited_waited_snoc, Hl.
  - intros Hm. destruct (Hs Hm) as (p & code & Hp & Hl).
    exists p, code. split; [exact Hp|]. apply exited_waited_set_snoc, Hl.
Qed.

Lemma exit_inv_child q s s1 :
  exit_inv s → child_step q s = Some s1 → exit_inv s1.
Proof.
  intros [He Hw Hs] Ht. thread_inv Ht.
  split; cbn [host log flag proc main mon procs set_procs].
  - intros c j code Hc Hj Hx. apply elem_of_app.
    destruct (decide (q = c)) as [->|Hne].
    + rewrite lookup_insert_eq in Hj. injection Hj as <-.
      cbn [p_state with_state] in Hx. injection Hx as <-.
      right. apply list_elem_of_singleton. reflexivity.
    + rewrite lookup_insert_ne in Hj by assumption. left. eauto.
  - intros Hm. destruct (Hw Hm) as (c & code & Hc & Hl).
    exists c, code. split; [exact Hc|]. apply exited_waited_snoc, Hl.
  - intros Hm. destruct (Hs Hm) as (c & code & Hc & Hl).
    exists c, code. split; [exact Hc|]. apply exited_waited_set_snoc, Hl.
Qed.

Lemma Popen_raise_host argv h e h' : Popen argv h = (Raise e, h') → h' = h.
Proof.
  rewrite Popen_unfold. destruct argv as [|name args]; [congruence|].
  destruct (exes h name); cbn zeta; congruence.
Qed.

Lemma exit_inv_run s s1 : exit_inv s → run_step s = Some s1 → exit_inv s1.
Proof.
  intros [He Hw Hs] Ht.
  thread_inv Ht; split; cbn [host log flag proc main mon procs set_procs];
    unfold past_wait, past_set in *;
    try (intros [Hm|[[? Hm]|Hm]]; discriminate Hm);
    try (intros [[? Hm]|Hm]; discriminate Hm).
  all: try exact He.
  all: try (intros c j x Hc Hj Hx; apply elem_of_app; left; eauto; fail).
  - (* Popen has returned the child, which runs *)
    intros c j x [= <-] Hj Hx.
    match goal with
    | E : Popen _ _ = (Ok _, _) |- _ => rewrite (Popen_ok_child _ _ _ _ _ E Hj) in Hx
    end. discriminate Hx.
  - (* Popen has raised, and changed nothing *)
    match goal with
    | E : Popen _ _ = (Raise _, _) |- _ => rewrite (Popen_raise_host _ _ _ _ E)
    end. exact He.
  - (* proc.wait() has returned: the child is reaped *)
    intros c j x [= <-] Hj Hx. rewrite lookup_delete_eq in Hj. discriminate Hj.
  - (* proc.wait() has returned: the child had exited *)
    intros _. eexists _, _. split; [reflexivity|].
    apply exited_waited_here. eapply He; eauto.
  - intros _. destruct Hw as (c & x & Hc & Hl); [auto|].
    exists c, x. split; [exact Hc|]. apply exited_waited_snoc, Hl.
  - intros _. destruct Hw as (c & x & Hc & Hl); [auto|].
    exists c, x. split; [exact Hc|]. apply exited_waited_set_here, Hl.
  - intros _. apply Hw. eauto.
  - intros _. apply Hs. eauto.
Qed.

Lemma reachable_exit_inv h argv s : reachable h argv s → exit_inv s.
Proof.
  apply (reachable_ind exit_inv); [apply exit_inv_init|].
  intros t s1 s2 _ Hs1 Ht. destruct t; cbn [step] in Ht;
    eauto using exit_inv_run, exit_inv_mon, exit_inv_child.
Qed.

(* --------------------------------------------------------------------- *)
(** *** The supervisor: spawning and the exit code *)
(* --------------------------------------------------------------------- *)

(** C8: when the child cannot be created, the first statement of [run]
    raises the error of [Popen] and [run] ends with it (the interpreter then
    exits with status 1); in no state of any execution has the monitor
    thread been started or a monitor event been recorded. *)
Theorem spawn_failure (h h' : Host) (argv : list string) (e : exn) :
  Popen argv h = (Raise e, h') →
  run_step (init h argv) = Some (MkSys h' [] false None (MainRaised e) MonNotStarted) ∧
  ∀ s, reachable h argv s →
    mon s = MonNotStarted ∧ mon_events (log s) = [] ∧ (EvThreadStart ∉ log s) ∧
    (main s = MainPopen argv ∨ main s = MainRaised e ∨ main s = MainExited 1).
Proof.
  intros HP. split.
  { unfold run_step. cbn [main init host]. rewrite HP. reflexivity. }
  apply (reachable_ind (λ s,
    mon s = MonNotStarted ∧ mon_events (log s) = [] ∧ (EvThreadStart ∉ log s) ∧
    (main s = MainPopen argv ∨ main s = MainRaised e ∨ main s = MainExited 1))).
  { cbn. repeat split; [apply not_elem_of_nil | auto]. }
  intros t s s' Hs (Hmon & Hev & Hth & Hmain) Ht.
  pose proof (reachable_exes _ _ _ Hs) as Hex.
  pose proof (Popen_raise_exes h (host s) h' argv e (eq_sym Hex) HP) as HPs.
  step_inv Ht; try congruence;
    rewrite ?mon_events_snoc, ?elem_of_snoc, ?Hev; cbn [is_mon_event app].
  all: try solve [destruct Hmain as [Hm|[Hm|Hm]]; discriminate Hm].
  - destruct Hmain as [[= ->]|[Hm|Hm]]; try discriminate Hm.
    rewrite HPs in E0. discriminate E0.
  - destruct Hmain as [[= ->]|[Hm|Hm]]; try discriminate Hm.
    rewrite HPs in E0. injection E0 as <- <-. repeat split; auto.
  - repeat split; auto.
  - repeat split; auto. intros [?|?]; [contradiction|discriminate].
Qed.

Lemma spawn_failure_witness :
  Popen ["missing"] linux_host = (Raise (FileNotFoundError "missing"), linux_host) ∧
  ∀ s, reachable linux_host ["missing"] s → mon s = MonNotStarted.
Proof.
  assert (H : Popen ["missing"] linux_host
              = (Raise (FileNotFoundError "missing"), linux_host)) by reflexivity.
  split; [exact H|]. intros s Hs.
  destruct (spawn_failure _ _ _ _ H) as [_ Hall]. apply (Hall s Hs).
Defined.

(** C1, as stated, fails: a child that ends with code 3 is waited for, its
    code is read and dropped, [run] returns [None] and the interpreter
    exits with status 0. *)
Lemma exit_code_not_propagated :
  ∃ s1 s2,
    exec [TMain; TMain; TMain; TChild 100%nat; TMain; TMain]
         (init linux_host ["job"]) = Some s1 ∧
    log s1 = [EvSpawn 100%nat; EvThreadStart; EvChildExit 100%nat 3;
              EvWait 100%nat 3; EvSet] ∧
    returned s1 = Some PyNone ∧
    run_step s1 = Some s2 ∧
    exit_status s2 = Some 0.
Proof.
  run_state Hs. exists s.
  run_fact Hs log. run_fact Hs main.
  unfold returned, run_step. rewrite Hf0. eexists. repeat split; eauto.
Qed.

Lemma run_to_return h argv p h' i :
  Popen argv h = (Ok p, h') → procs h' !! p = Some i →
  ∃ s, exec [TMain; TMain; TMain; TChild p; TMain; TMain] (init h argv) = Some s ∧
       log s = [EvSpawn p; EvThreadStart; EvChildExit p (p_exit i);
                EvWait p (p_exit i); EvSet] ∧
       main s = MainReturned PyNone ∧ flag s = true ∧ mon s = MonCheck.
Proof.
  intros HP Hi. pose proof (Popen_ok_child _ _ _ _ _ HP Hi) as Hrun.
  unfold init, exec, step, run_step, child_step.
  cbn [main host log flag proc mon mbind option_bind]. rewrite HP.
  cbn [main host log flag proc mon mbind option_bind]. rewrite Hi.
  cbn [main host log flag proc mon mbind option_bind]. rewrite Hrun.
  cbn [main host log flag proc mon mbind option_bind procs set_procs].
  rewrite lookup_insert_eq.
  cbn [main host log flag proc mon mbind option_bind p_state with_state app].
  eexists. split; [reflexivity|]. cbn. auto.
Qed.

(** When the child can be created, [run] never raises. *)
Lemma run_never_raises h h' argv p s :
  Popen argv h = (Ok p, h') → reachable h argv s →
  (∀ e, main s ≠ MainRaised e) ∧ (∀ n, main s = MainExited n → n = 0).
Proof.
  intros HP.
  apply (reachable_ind (λ s,
    (∀ e, main s ≠ MainRaised e) ∧ (∀ n, main s = MainExited n → n = 0))).
  { cbn. split; intros; discriminate. }
  clear s. intros t s s' Hs [Hr Hx] Ht.
  pose proof (reachable_exes _ _ _ Hs) as Hex.
  destruct (Popen_ok_exes h (host s) h' argv p (eq_sym Hex) HP) as (p' & h2 & HPs).
  pose proof (λ a, reachable_popen _ _ _ a Hs) as Hargv.
  step_inv Ht; try (split; [intros; discriminate | intros ? [=]; done]); auto.
  - rewrite (Hargv _ eq_refl), HPs in E0. discriminate E0.
  - exfalso. eapply Hr. reflexivity.
Qed.

(** C1 (amended): for every command line whose child is created and ends
    with code [E], [run] waits for it, sets the flag and returns [None], and
    the interpreter exits with status 0: there is such an execution, and in
    every execution a [run] that has returned has returned [None] after the
    wait, which returned after the exit of the child, [run] never raises,
    and the only exit status is 0. *)
Theorem run_returns_none
    (h h' : Host) (argv : list string) (p : pid) (i : proc_info) :
  Popen argv h = (Ok p, h') → procs h' !! p = Some i →
  (∃ s, exec [TMain; TMain; TMain; TChild p; TMain; TMain] (init h argv) = Some s ∧
        log s = [EvSpawn p; EvThreadStart; EvChildExit p (p_exit i);
                 EvWait p (p_exit i); EvSet] ∧
        returned s = Some PyNone ∧
        exit_status <$> run_step s = Some (Some 0)) ∧
  ∀ s, reachable h argv s →
    (∀ v, returned s = Some v →
          v = PyNone ∧ flag s = true ∧ has_wait (log s) ∧
          ∃ q code, proc s = Some q ∧ exited_waited q code (log s)) ∧
    (∀ e, main s ≠ MainRaised e) ∧
    (∀ n, exit_status s = Some n → n = 0).
Proof.
  intros HP Hi. split.
  - destruct (run_to_return _ _ _ _ _ HP Hi) as (s & Hs & Hlog & Hmain & _).
    exists s. unfold returned, run_step. rewrite Hmain. auto.
  - intros s Hs.
    destruct (run_never_raises _ _ _ _ _ HP Hs) as [Hr Hx].
    destruct (reachable_inv _ _ _ Hs) as [_ Hfl Hret _ _ Hw _ _ _ _].
    repeat split; auto.
    + unfold returned in H. destruct (main s); try discriminate.
      injection H as ->. eauto.
    + unfold returned in H. destruct (main s) eqn:E; try discriminate.
      injection H as ->. rewrite (Hret _ eq_refl) in *. apply Hfl. auto.
    + unfold returned in H. destruct (main s) eqn:E; try discriminate.
      injection H as ->. rewrite (Hret _ eq_refl) in *. apply Hw.
      unfold waited. auto.
    + unfold returned in H. destruct (main s) eqn:E; try discriminate.
      apply (ei_waited _ (reachable_exit_inv _ _ _ Hs)).
      unfold past_wait. rewrite E. eauto.
    + intros n. unfold exit_status. destruct (main s) eqn:E; try discriminate.
      intros [= ->]. eauto.
Qed.

Lemma run_returns_none_witness :
  ∃ s, exec [TMain; TMain; TMain; TChild 100%nat; TMain; TMain]
            (init linux_host ["job"]) = Some s ∧
       returned s = Some PyNone ∧
       exit_status <$> run_step s = Some (Some 0).
Proof.
  destruct (run_returns_none linux_host (Popen ["job"] linux_host).2 ["job"] 100%nat
              (ProcInfo Running 3 (eligible linux_host) 0 (2 ^ 64 - 1, 2 ^ 64 - 1)))
    as [(s & Hs & _ & Hr & Hx) _]; [reflexivity | reflexivity |].
  exists s. auto.
Defined.

(* --------------------------------------------------------------------- *)
(** *** The termination signal *)
(* --------------------------------------------------------------------- *)

Lemma cycles_begun_snoc l e :
  cycles_begun (l ++ [e]) = (cycles_begun l + if is_cycle_start e then 1 else 0)%nat.
Proof.
  unfold cycles_begun. rewrite filter_app, length_app. f_equal.
  destruct e as [| | | | |[]| | |]; reflexivity.
Qed.

(** Once the flag is set it stays set, no turn of the loop begins, and the
    turn in progress makes at most the calls it still had to make. *)
Lemma step_after_set t s s' :
  inv s → flag s = true → step t s = Some s' →
  flag s' = true ∧ cycles_begun (log s') = cycles_begun (log s) ∧
  (length (applications (log s')) + in_flight (mon s')
   ≤ length (applications (log s)) + in_flight (mon s))%nat.
Proof.
  intros [_ Hfl _ _ _ _ _ _ _ _] Hflag Ht.
  apply Hfl in Hflag as Hmain.
  step_inv Ht;
    try (destruct Hmain as [Hm|Hm]; discriminate Hm);
    try discriminate Hflag;
    rewrite ?cycles_begun_snoc, ?applications_snoc, ?length_app;
    cbn [is_cycle_start is_apply in_flight length]; repeat split; auto; lia.
Qed.

Lemma exec_after_set sched s s' :
  inv s → flag s = true → exec sched s = Some s' →
  flag s' = true ∧ cycles_begun (log s') = cycles_begun (log s) ∧
  (length (applications (log s')) + in_flight (mon s')
   ≤ length (applications (log s)) + in_flight (mon s))%nat.
Proof.
  revert s. induction sched as [|t sched IH]; intros s Hinv Hflag Hs.
  - cbn in Hs. injection Hs as <-. auto.
  - cbn [exec] in Hs. destruct (step t s) as [s1|] eqn:Ht; [|discriminate Hs].
    cbn [mbind option_bind] in Hs.
    destruct (step_after_set _ _ _ Hinv Hflag Ht) as (Hf1 & Hc1 & Ha1).
    destruct (IH s1 (inv_step _ _ _ Hinv Ht) Hf1 Hs) as (Hf & Hc & Ha).
    repeat split; [assumption | congruence | lia].
Qed.

(** A monitor thread that is over records nothing more, and no step of
    another thread revives it. *)
Lemma step_mon_over t s s' :
  inv s → mon_over (mon s) → step t s = Some s' →
  mon s' = mon s ∧ mon_events (log s') = mon_events (log s).
Proof.
  intros [Hst _ _ _ _ _ _ _ _ _] Hover Ht.
  assert (Hstarted : started (main s)).
  { apply Hst. destruct Hover as [->|[e ->]]; discriminate. }
  unfold started in Hstarted.
  step_inv Ht;
    try (destruct Hover as [Ho|[? Ho]]; discriminate Ho);
    try (destruct Hstarted as [Hm|[Hm|[Hm|Hm]]]; discriminate Hm);
    rewrite ?mon_events_snoc; cbn [is_mon_event];
    rewrite ?app_nil_r; split; reflexivity.
Qed.

Lemma exec_mon_over sched s s' :
  inv s → mon_over (mon s) → exec sched s = Some s' →
  mon s' = mon s ∧ mon_events (log s') = mon_events (log s) ∧
  ∀ e, main s' ≠ MainRaised e.
Proof.
  revert s. induction sched as [|t sched IH]; intros s Hinv Hover Hs.
  - cbn in Hs. injection Hs as <-. repeat split.
    assert (Hstarted : started (main s)).
    { apply (inv_started _ Hinv). destruct Hover as [->|[e ->]]; discriminate. }
    intros e He. rewrite He in Hstarted.
    destruct Hstarted as [Hm|[Hm|[Hm|Hm]]]; discriminate Hm.
  - cbn [exec] in Hs. destruct (step t s) as [s1|] eqn:Ht; [|discriminate Hs].
    cbn [mbind option_bind] in Hs.
    destruct (step_mon_over _ _ _ Hinv Hover Ht) as (Hm1 & He1).
    assert (Hover1 : mon_over (mon s1)) by (rewrite Hm1; exact Hover).
    destruct (IH s1 (inv_step _ _ _ Hinv Ht) Hover1 Hs) as (Hm & He & Hr).
    repeat split; [congruence | congruence | exact Hr].
Qed.

(** C4: in every execution the flag is set at most once, by [run] at line
    80, after [proc.wait()] has returned, which it has only after the child
    has exited: when the flag is set, the log holds the exit of the child,
    then the return of the wait with the code of that exit, then the one
    setting of the flag; once set it stays set; after it is set no turn of
    the loop begins and the turn in progress makes at most the actuator
    calls it still had to make; after the loop has read it set the monitor
    thread is over and records nothing more. *)
Theorem termination_signal
    (h : Host) (argv : list string) (sched : list tid) (s s' : Sys) :
  reachable h argv s → exec sched s = Some s' →
  count_set (log s') = (if flag s' then 1%nat else 0%nat) ∧
  (flag s' = true ↔ main s' = MainReturned PyNone ∨ main s' = MainExited 0) ∧
  set_after_wait (log s') ∧
  (flag s' = true →
   ∃ p code, proc s' = Some p ∧ exited_waited_set p code (log s')) ∧
  (flag s = true → flag s' = true) ∧
  (flag s = true →
   cycles_begun (log s') = cycles_begun (log s) ∧
   (length (applications (log s'))
    ≤ length (applications (log s)) + in_flight (mon s))%nat) ∧
  (EvIsSet true ∈ log s →
   mon s' = MonStopped ∧ mon_events (log s') = mon_events (log s)).
Proof.
  intros Hs Hs'.
  pose proof (reachable_inv _ _ _ Hs) as Hinv.
  pose proof (reachable_inv _ _ _ (reachable_exec _ _ _ _ _ Hs Hs')) as Hinv'.
  split; [apply (inv_set_once _ Hinv')|].
  split; [apply (inv_flag _ Hinv')|].
  split; [apply (inv_set_after_wait _ Hinv')|].
  split; [|split; [|split]].
  - intros Hf. apply (inv_flag _ Hinv') in Hf.
    apply (ei_set _ (reachable_exit_inv _ _ _ (reachable_exec _ _ _ _ _ Hs Hs'))).
    unfold past_set. destruct Hf as [Hf|Hf]; eauto.
  - intros Hf. apply (exec_after_set _ _ _ Hinv Hf Hs').
  - intros Hf. destruct (exec_after_set _ _ _ Hinv Hf Hs') as (_ & Hc & Ha).
    split; [exact Hc | lia].
  - intros Hobs. apply (inv_stopped _ Hinv) in Hobs.
    destruct (exec_mon_over sched s s' Hinv (or_introl Hobs) Hs') as (Hm & He & _).
    split; congruence.
Qed.

Lemma termination_signal_witness :
  ∃ s s',
    exec [TMain; TMain; TMain; TMon; TMon; TChild 100%nat; TMain; TMain]
         (init linux_host ["job"]) = Some s ∧
    exec [TMon; TMon; TMon; TMain] s = Some s' ∧
    flag s = true ∧ mon s = MonGetCpu get_max_memory ∧
    flag s' = true ∧ cycles_begun (log s') = cycles_begun (log s) ∧
    (length (applications (log s')) ≤ length (applications (log s)) + 3)%nat ∧
    ∃ p code, proc s' = Some p ∧ exited_waited_set p code (log s').
Proof.
  run_state Hs. exists s.
  destruct (exec [TMon; TMon; TMon; TMain] s) as [s'|] eqn:Hs'.
  2: { assert (H : exec ([TMain; TMain; TMain; TMon; TMon; TChild 100%nat; TMain; TMain]
                         ++ [TMon; TMon; TMon; TMain]) (init linux_host ["job"]) = None)
         by (rewrite exec_app, Hs; exact Hs').
       vm_compute in H. discriminate H. }
  exists s'. run_fact Hs flag. run_fact Hs mon.
  destruct (termination_signal linux_host ["job"] [TMon; TMon; TMon; TMain] s s')
    as (_ & _ & _ & Hexit & Hmono & Hcyc & _); [eexists; exact Hs | exact Hs' |].
  destruct (Hcyc Hf) as [Hc Ha]. rewrite Hf0 in Ha.
  repeat split; auto.
Defined.

(* --------------------------------------------------------------------- *)
(** *** A raise in the monitor loop *)
(* --------------------------------------------------------------------- *)

Lemma applications_mon_events l : applications (mon_events l) = applications l.
Proof.
  induction l as [|e l IH] using rev_ind; [reflexivity|].
  rewrite mon_events_snoc, applications_snoc.
  destruct e; cbn [is_mon_event is_apply]; rewrite ?app_nil_r, ?applications_snoc;
    cbn [is_apply]; rewrite ?app_nil_r; congruence.
Qed.

(** C2, as stated, fails: on a platform without affinity control the CPU
    actuator raises [AttributeError] in the first turn of the loop; the GPU
    actuator is not called in that turn, and no actuator is called ever
    after. *)
Lemma cpu_failure_ends_monitor :
  ∃ s,
    exec [TMain; TMain; TMain; TMon; TMon; TMon; TMon; TMon; TMon]
         (init plain_host ["job"]) = Some s ∧
    mon s = MonRaised AttributeError ∧
    applications (log s) = [EvApply Memory get_max_memory; EvApply Cpu get_max_cpu] ∧
    ∀ sched s', exec sched s = Some s' → applications (log s') = applications (log s).
Proof.
  run_state Hs. exists s.
  run_fact Hs mon. run_fact Hs (λ s, applications (log s)).
  repeat split; auto.
  intros sched s' Hs'.
  assert (Hreach : reachable plain_host ["job"] s) by (eexists; exact Hs).
  destruct (exec_mon_over sched s s' (reachable_inv _ _ _ Hreach)) as (_ & He & _);
    [right; eexists; exact Hf | exact Hs' |].
  rewrite <- applications_mon_events, He, applications_mon_events. reflexivity.
Qed.

(** C2 (amended): a failure raised by an actuator in the monitor loop never
    reaches [run] (its place and the flag are untouched, and [run] never
    raises afterwards) and ends no process; it ends the monitor thread: the
    actuators after it in that turn are not called and no later turn runs. *)
Theorem actuator_failure_ends_monitor
    (h : Host) (argv : list string) (s s1 : Sys) (e : exn) :
  reachable h argv s → monitor_memory_and_cpu_step s = Some s1 → mon s1 = MonRaised e →
  main s1 = main s ∧ flag s1 = flag s ∧
  (∀ q, p_state <$> procs (host s1) !! q = p_state <$> procs (host s) !! q) ∧
  ∀ sched s', exec sched s1 = Some s' →
    mon s' = MonRaised e ∧ mon_events (log s') = mon_events (log s1) ∧
    ∀ e', main s' ≠ MainRaised e'.
Proof.
  intros Hs Ht He.
  destruct (mon_step_frame _ _ Ht) as (Hmain & Hflag & Hst).
  split; [exact Hmain|]. split; [exact Hflag|]. split; [exact Hst|].
  intros sched s' Hs'.
  pose proof (reachable_inv _ _ _ (reachable_step _ _ TMon _ _ Hs Ht)) as Hinv1.
  destruct (exec_mon_over sched s1 s' Hinv1 (or_intror (ex_intro _ e He)) Hs')
    as (Hm & Hev & Hr).
  split; [congruence|]. split; assumption.
Qed.

Lemma actuator_failure_ends_monitor_witness :
  ∃ s s1,
    exec [TMain; TMain; TMain; TMon; TMon; TMon; TMon; TMon]
         (init plain_host ["job"]) = Some s ∧
    monitor_memory_and_cpu_step s = Some s1 ∧ mon s1 = MonRaised AttributeError ∧
    main s1 = main s ∧
    ∀ sched s', exec sched s1 = Some s' → mon s' = MonRaised AttributeError.
Proof.
  run_state Hs. exists s.
  destruct (monitor_memory_and_cpu_step s) as [s1|] eqn:Hs1.
  2: { assert (H : exec ([TMain; TMain; TMain; TMon; TMon; TMon; TMon; TMon] ++ [TMon])
                        (init plain_host ["job"]) = None)
         by (rewrite exec_app, Hs; cbn; rewrite Hs1; reflexivity).
       vm_compute in H. discriminate H. }
  exists s1.
  assert (Hs1' : exec ([TMain; TMain; TMain; TMon; TMon; TMon; TMon; TMon] ++ [TMon])
                      (init plain_host ["job"]) = Some s1)
    by (rewrite exec_app, Hs; cbn; rewrite Hs1; reflexivity).
  run_fact Hs1' mon.
  destruct (actuator_failure_ends_monitor plain_host ["job"] s s1 AttributeError)
    as (Hmain & _ & _ & Hlater); [eexists; exact Hs | exact Hs1 | exact Hf |].
  repeat split; auto. intros sched s' Hs'. apply (Hlater sched s' Hs').
Defined.

(** C6, as stated, fails: with a hard limit of 512 MiB the ceiling of 1 GiB
    is refused with [ValueError], and the loop neither records nor survives
    it: the thread is over after the call, no other actuator is called, no
    sleep and no further turn follow. *)
Lemma invalid_ceiling_ends_monitor :
  ∃ s,
    exec [TMain; TMain; TMain; TMon; TMon; TMon; TMon; TMon]
         (init capped_host ["job"]) = Some s ∧
    mon s = MonRaised (ValueError "current limit exceeds maximum limit") ∧
    mon_events (log s) = take 5 cycle_events ∧
    monitor_memory_and_cpu_step s = None ∧
    ∀ sched s', exec sched s = Some s' → mon_events (log s') = take 5 cycle_events.
Proof.
  run_state Hs. exists s.
  run_fact Hs mon. run_fact Hs (λ s, mon_events (log s)). run_fact Hs main.
  repeat split; auto.
  - unfold monitor_memory_and_cpu_step. rewrite Hf, Hf1. reflexivity.
  - intros sched s' Hs'.
    assert (Hreach : reachable capped_host ["job"] s) by (eexists; exact Hs).
    destruct (exec_mon_over sched s s' (reachable_inv _ _ _ Hreach)) as (_ & He & _);
      [right; eexists; exact Hf | exact Hs' |].
    rewrite He. exact Hf0.
Qed.

(** C6 (amended): for every ceiling that a finite hard limit does not permit
    (negative, or above the hard limit), [adjust_memory_limit] raises
    [ValueError] and changes nothing; in the monitor loop nothing catches
    it: the call is the last thing the monitor thread does, so neither the
    other actuators of that turn nor any further turn run. *)
Theorem invalid_ceiling (h : Host) (process : pid) (value : Z) :
  in_long value = true → 0 <= hard_limit h → value < 0 ∨ hard_limit h < value →
  let e := ValueError "current limit exceeds maximum limit" in
  adjust_memory_limit process value h = (Raise e, h) ∧
  ∀ h0 argv s c g,
    reachable h0 argv s → host s = h → proc s = Some process →
    mon s = MonMem value c g → is_exited (main s) = false →
    ∃ s1, monitor_memory_and_cpu_step s = Some s1 ∧ mon s1 = MonRaised e ∧ host s1 = h ∧
          log s1 = log s ++ [EvApply Memory value] ∧
          ∀ sched s', exec sched s1 = Some s' →
            mon s' = MonRaised e ∧ mon_events (log s') = mon_events (log s1).
Proof.
  intros Hin Hhard Hbad e.
  assert (Hraise : adjust_memory_limit process value h = (Raise e, h)).
  { rewrite adjust_memory_limit_unfold, Hin. cbn [negb].
    unfold hard_limit in *.
    destruct (rlim2py_nonneg (rlim_max h) Hhard) as [Heq Hlt]. rewrite <- Heq.
    unfold in_long in Hin. apply andb_prop in Hin as [Hlo Hhi].
    apply Z.leb_le in Hlo. apply Z.ltb_lt in Hhi.
    assert (Hu : rlim2py (rlim_max h) < py2rlim value).
    { unfold py2rlim. destruct Hbad as [Hneg|Habove].
      - rewrite <- (Z.mod_unique value (2 ^ 64) (-1) (value + 2 ^ 64)); lia.
      - rewrite Z.mod_small; lia. }
    destruct (Z.ltb_spec (rlim2py (rlim_max h)) (py2rlim value)); [reflexivity|lia]. }
  split; [exact Hraise|].
  intros h0 argv s c g Hs Hhost Hproc Hmon Hmain.
  eexists. split.
  { unfold monitor_memory_and_cpu_step, call. rewrite Hmain, Hmon, Hproc. cbn [mbind option_bind].
    rewrite Hhost, Hraise. reflexivity. }
  cbn [mon host log]. repeat split.
  all: match goal with
       | H : exec _ ?s1 = Some _ |- _ =>
           assert (Hinv1 : inv s1);
           [ apply (reachable_inv h0 argv);
             apply (reachable_step _ _ TMon s); [exact Hs|];
             cbn [step]; unfold monitor_memory_and_cpu_step, call;
             rewrite Hmain, Hmon, Hproc; cbn [mbind option_bind];
             rewrite Hhost, Hraise; reflexivity
           | destruct (exec_mon_over _ _ _ Hinv1 (or_intror (ex_intro _ e eq_refl)) H)
               as (Hm & Hev & _); assumption ]
       end.
Qed.

Lemma invalid_ceiling_witness :
  adjust_memory_limit 100%nat get_max_memory capped_host
  = (Raise (ValueError "current limit exceeds maximum limit"), capped_host).
Proof.
  apply (invalid_ceiling capped_host 100%nat get_max_memory).
  - reflexivity.
  - vm_compute. discriminate.
  - right. vm_compute. reflexivity.
Defined.

(* --------------------------------------------------------------------- *)
(** *** The turns of the monitor loop *)
(* --------------------------------------------------------------------- *)

Lemma mjoin_replicate_S {A} (k : nat) (c : list A) :
  mjoin (replicate (S k) c) = mjoin (replicate k c) ++ c.
Proof.
  induction k as [|k IH]; cbn [replicate mjoin list_join] in *.
  - rewrite app_nil_r. reflexivity.
  - rewrite <- app_assoc. f_equal. exact IH.
Qed.

Ltac trace_more k Hk :=
  unfold cycles_then; rewrite ?mon_events_snoc, Hk; cbn [is_mon_event];
  eexists; split; [| exists k; rewrite <- ?app_assoc; reflexivity];
  rewrite ?app_nil_r; cbn; auto.

(** In every state of an execution the monitor events recorded so far are
    whole turns of the loop followed by the events of the turn in progress. *)
Lemma trace_inv h argv s :
  reachable h argv s → ∃ part, partial_of (mon s) part ∧ cycles_then part (log s).
Proof.
  apply (reachable_ind (λ s, ∃ part, partial_of (mon s) part ∧ cycles_then part (log s))).
  { exists []. split; [reflexivity|]. exists 0%nat. reflexivity. }
  clear s. intros t s s' Hs (part & Hp & k & Hk) Ht.
  pose proof (reachable_inv _ _ _ Hs) as [Hst _ _ _ _ _ _ _ _ Hc].
  step_inv Ht.
  all: lazymatch goal with
       | |- ∃ _, _ ∧ cycles_then _ (_ ++ [EvThreadStart]) =>
           destruct (mon s) eqn:Em;
           try (exfalso; destruct Hst as [Hm|[Hm|[Hm|Hm]]]; discriminate);
           cbn [partial_of] in Hp; subst part; trace_more k Hk
       | |- ∃ _, _ ∧ cycles_then _ (_ ++ [EvSleep _]) =>
           cbn [partial_of] in Hp; subst part;
           exists []; split; [reflexivity|]; exists (S k);
           rewrite mon_events_snoc, Hk, mjoin_replicate_S, <- !app_assoc;
           reflexivity
       | |- _ =>
           cbn [partial_of] in Hp; try (destruct Hp; discriminate);
           try subst part; destruct_and? Hc; subst; trace_more k Hk
       end.
Qed.

Lemma adjust_gpu_limit_ok p v h : adjust_gpu_limit p v h = (Ok tt, h).
Proof. reflexivity. Qed.

Lemma exec_cons t sched s s1 :
  step t s = Some s1 → exec (t :: sched) s = exec sched s1.
Proof. intros H. cbn [exec]. rewrite H. reflexivity. Qed.

(** A turn of the loop in which no actuator raises, run without another
    thread in between: all of [cycle_events], and back at the loop head. *)
Lemma full_cycle s p :
  mon s = MonCheck → flag s = false → is_exited (main s) = false →
  proc s = Some p →
  (adjust_memory_limit p get_max_memory (host s)).1 = Ok tt →
  (adjust_cpu_limit p get_max_cpu
     (adjust_memory_limit p get_max_memory (host s)).2).1 = Ok tt →
  ∃ s', exec (replicate 8 TMon) s = Some s' ∧ mon s' = MonCheck ∧
        log s' = log s ++ cycle_events.
Proof.
  intros Hmon Hflag Hmain Hproc Hmem Hcpu.
  destruct (adjust_memory_limit p get_max_memory (host s)) as [r1 h1] eqn:E1.
  cbn [fst snd] in *. subst r1.
  destruct (adjust_cpu_limit p get_max_cpu h1) as [r2 h2] eqn:E2.
  cbn [fst] in *. subst r2.
  cbn [replicate].
  do 8 (erewrite exec_cons;
        [| cbn [step]; unfold monitor_memory_and_cpu_step, call;
           cbn [main mon flag proc host log];
           rewrite ?Hmain, ?Hmon, ?Hflag, ?Hproc; cbn [mbind option_bind];
           rewrite ?E1, ?E2, ?adjust_gpu_limit_ok; reflexivity ]).
  eexists. split; [reflexivity|]. cbn [mon log]. split; [reflexivity|].
  rewrite <- !app_assoc. reflexivity.
Qed.

(** C7, as stated, fails: the child may end and be reaped before the flag
    is set; the turn of the loop that begins then, with the flag unset,
    calls the memory actuator and the CPU actuator, which raises
    [NoSuchProcess]: the GPU actuator is not called, the loop does not
    sleep, and nothing follows. *)
Lemma cycle_cut_short :
  ∃ s,
    exec [TMain; TMain; TMain; TChild 100%nat; TMain;
          TMon; TMon; TMon; TMon; TMon; TMon]
         (init linux_host ["job"]) = Some s ∧
    flag s = false ∧
    mon s = MonRaised (NoSuchProcess 100%nat) ∧
    mon_events (log s) = take 6 cycle_events ∧
    ∀ sched s', exec sched s = Some s' → mon_events (log s') = take 6 cycle_events.
Proof.
  run_state Hs. exists s.
  run_fact Hs flag. run_fact Hs mon. run_fact Hs (λ s, mon_events (log s)).
  repeat split; auto.
  intros sched s' Hs'.
  assert (Hreach : reachable linux_host ["job"] s) by (eexists; exact Hs).
  destruct (exec_mon_over sched s s' (reachable_inv _ _ _ Hreach)) as (_ & He & _);
    [right; eexists; exact Hf0 | exact Hs' |].
  rewrite He. exact Hf1.
Qed.

Lemma partial_of_prefix m part :
  partial_of m part → part `prefix_of` cycle_events ∨ part = [EvIsSet true].
Proof.
  destruct m; cbn [partial_of]; intros Hp;
    try (destruct Hp as [Hp|[Hp|Hp]]);
    subst part; try (right; reflexivity);
    left; eexists; reflexivity.
Qed.

(** C7 (amended): in every execution, under every interleaving, the monitor
    thread records whole turns of the loop - the flag read unset, the three
    ceilings queried, the memory, CPU and GPU actuators called in that
    order, a sleep of 1 - followed by a prefix of one turn (the turn in
    progress, or the turn an actuator's raise cut short) or by the final
    read of the flag; at the loop head with the flag unset the loop always
    enters a turn; and a turn in which no actuator raises, run undisturbed,
    is complete and ends back at the loop head. *)
Theorem cycle_order_and_completeness (h : Host) (argv : list string) (s : Sys) :
  reachable h argv s →
  (∃ part, partial_of (mon s) part ∧ cycles_then part (log s) ∧
           (part `prefix_of` cycle_events ∨ part = [EvIsSet true])) ∧
  (mon s = MonCheck → flag s = false → is_exited (main s) = false →
   ∃ s1, monitor_memory_and_cpu_step s = Some s1 ∧ mon s1 = MonGetMemory) ∧
  (∀ p, mon s = MonCheck → flag s = false → is_exited (main s) = false →
        proc s = Some p →
        (adjust_memory_limit p get_max_memory (host s)).1 = Ok tt →
        (adjust_cpu_limit p get_max_cpu
           (adjust_memory_limit p get_max_memory (host s)).2).1 = Ok tt →
        ∃ s', exec (replicate 8 TMon) s = Some s' ∧ mon s' = MonCheck ∧
              log s' = log s ++ cycle_events).
Proof.
  intros Hs. split; [|split].
  - destruct (trace_inv _ _ _ Hs) as (part & Hp & Hc).
    exists part. eauto using partial_of_prefix.
  - intros Hmon Hflag Hmain. unfold monitor_memory_and_cpu_step. rewrite Hmain, Hmon, Hflag.
    eexists. split; reflexivity.
  - intros p. apply full_cycle.
Qed.

Lemma cycle_order_and_completeness_witness :
  ∃ s s',
    exec [TMain; TMain; TMain] (init linux_host ["job"]) = Some s ∧
    exec (replicate 8 TMon) s = Some s' ∧
    mon s' = MonCheck ∧ log s' = log s ++ cycle_events.
Proof.
  run_state Hs. exists s.
  run_fact Hs mon. run_fact Hs flag. run_fact Hs (λ s, is_exited (main s)).
  run_fact Hs proc.
  run_fact Hs (λ s, (adjust_memory_limit 100%nat get_max_memory (host s)).1).
  run_fact Hs (λ s, (adjust_cpu_limit 100%nat get_max_cpu
                       (adjust_memory_limit 100%nat get_max_memory (host s)).2).1).
  destruct (cycle_order_and_completeness linux_host ["job"] s) as (_ & _ & Hfull);
    [eexists; exact Hs|].
  destruct (Hfull 100%nat Hf Hf0 Hf1 Hf2 Hf3 Hf4) as (s' & Hs' & Hm & Hl).
  exists s'. auto.
Defined.

(* ===================================================================== *)
(** ** Further properties of the actuators *)
(* ===================================================================== *)

(** X2: a call of [adjust_memory_limit] that raises has changed nothing, and
    what it raises is [OverflowError] (the ceiling does not fit a C long) or
    the [ValueError] of a soft limit above the hard limit. *)
Theorem memory_limit_failure_changes_nothing
    (h h' : Host) (process : pid) (value : Z) (e : exn) :
  adjust_memory_limit process value h = (Raise e, h') →
  h' = h ∧
  (e = OverflowError ∨ e = ValueError "current limit exceeds maximum limit").
Proof.
  rewrite adjust_memory_limit_unfold.
  destruct (negb (in_long value)); [intros [= <- <-]; auto|].
  destruct (_ <? _); [intros [= <- <-]; auto | discriminate].
Qed.

Lemma memory_limit_failure_changes_nothing_witness :
  (adjust_memory_limit 7%nat (2 ^ 63) linux_host).2 = linux_host.
Proof.
  apply (memory_limit_failure_changes_nothing linux_host _ 7%nat (2 ^ 63) OverflowError).
  reflexivity.
Defined.

(** X3: applying [adjust_memory_limit] a second time with the same ceiling
    ends as the first application did and leaves the host the first one
    left: the limits do not drift from cycle to cycle. *)
Theorem memory_limit_idempotent (h : Host) (process : pid) (value : Z) :
  let once := adjust_memory_limit process value h in
  adjust_memory_limit process value once.2 = once.
Proof.
  cbn zeta. rewrite (adjust_memory_limit_unfold process value h).
  destruct (negb (in_long value)) eqn:Hin.
  { cbn [snd]. rewrite adjust_memory_limit_unfold, Hin. reflexivity. }
  destruct (rlim_max h mod 2 ^ 64 <? py2rlim value) eqn:Hlt.
  { cbn [snd]. rewrite adjust_memory_limit_unfold, Hin, Hlt. reflexivity. }
  cbn [snd]. rewrite adjust_memory_limit_unfold, Hin.
  cbn [rlim_max set_rlimit]. rewrite Z.mod_mod, Hlt by lia.
  reflexivity.
Qed.

(** X4: whatever [adjust_cpu_limit] does, it leaves the limits of the
    supervisor and the CPU count alone, adds or removes no process, touches
    no process but the one it is given, and of that one changes neither
    whether it runs nor the code it ends with. *)
Theorem cpu_limit_frame
    (h h' : Host) (process : pid) (value : Z) (r : result unit) :
  adjust_cpu_limit process value h = (r, h') →
  rlim_cur h' = rlim_cur h ∧ rlim_max h' = rlim_max h ∧
  cpu_count h' = cpu_count h ∧
  dom (procs h') = dom (procs h) ∧
  (∀ q, q ≠ process → procs h' !! q = procs h !! q) ∧
  p_state <$> procs h' !! process = p_state <$> procs h !! process ∧
  p_exit <$> procs h' !! process = p_exit <$> procs h !! process.
Proof.
  rewrite adjust_cpu_limit_unfold.
  destruct (procs h !! process) as [i|] eqn:Hi; [|intros [= <- <-]; rewrite Hi; auto 10].
  assert (Hsome : is_Some (procs h !! process)) by (rewrite Hi; eauto).
  repeat case_match; intros [= <- <-]; rewrite ?Hi; cbn [procs set_procs rlim_cur rlim_max cpu_count];
    rewrite ?lookup_insert_eq, ?(dom_insert_lookup_L _ _ _ Hsome);
    repeat split; auto; intros q Hq; rewrite lookup_insert_ne; auto.
Qed.

Lemma cpu_limit_frame_witness :
  rlim_cur (adjust_cpu_limit 7%nat 50 niced_host).2 = rlim_cur niced_host ∧
  dom (procs (adjust_cpu_limit 7%nat 50 niced_host).2) = dom (procs niced_host).
Proof.
  destruct (cpu_limit_frame niced_host (adjust_cpu_limit 7%nat 50 niced_host).2
              7%nat 50 (Ok tt))
    as (Hc & _ & _ & Hd & _); [vm_compute; reflexivity|].
  split; [exact Hc|exact Hd].
Defined.

(** X5: a call of [adjust_cpu_limit] that raises anything but the refusal
    of the priority change has changed nothing: on a host without affinity
    control, or for a process that is gone, neither the affinity nor the
    priority is touched. *)
Theorem cpu_limit_failure_changes_nothing
    (h h' : Host) (process : pid) (value : Z) (e : exn) :
  adjust_cpu_limit process value h = (Raise e, h') →
  e ≠ AccessDenied process → h' = h.
Proof.
  rewrite adjust_cpu_limit_unfold.
  repeat case_match; intros [= <- <-] He; try reflexivity.
  contradiction He. reflexivity.
Qed.

Lemma cpu_limit_failure_changes_nothing_witness :
  (adjust_cpu_limit 7%nat 50 (set_procs (procs niced_host) plain_host)).2
  = set_procs (procs niced_host) plain_host.
Proof.
  apply (cpu_limit_failure_changes_nothing _ _ 7%nat 50 AttributeError).
  - vm_compute. reflexivity.
  - discriminate.
Defined.

(** X6: the CPU actuator succeeds whenever the process is in the table, the
    host has at least one CPU and affinity control, the percent is between
    0 and 100 (and the product with the CPU count below [100 * 2^47]), the
    interpreter has memory for a list of all the CPUs, CPU 0 is permitted to
    the process, and the process is not nicer than 10 already or the user is
    privileged. *)
Theorem cpu_limit_succeeds
    (h : Host) (process : pid) (value n : Z) (i : proc_info) :
  procs h !! process = Some i → cpu_count h = Some n → 1 <= n →
  0 <= value <= 100 → n * value < 100 * 2 ^ 47 →
  affinity_api h = true → n <= list_capacity h → 0%nat ∈ cpuset h →
  p_nice i <= 10 ∨ superuser h = true →
  (adjust_cpu_limit process value h).1 = Ok tt.
Proof.
  intros Hi Hn Hn1 Hv Hnv Hapi Hcap H0 Hnice.
  assert (Hnv0 : 0 <= n * value) by (apply Z.mul_nonneg_nonneg; lia).
  destruct (cores_le_cpus n value) as [Hk1 Hkn]; [lia | lia |].
  assert (Hk : Z.max 1 (n * value / 100) < 2 ^ 63).
  { apply Z.max_lub_lt; [lia|].
    apply Z.div_lt_upper_bound; lia. }
  rewrite adjust_cpu_limit_unfold, Hi, Hn, (num_cores_floor n value), Hapi by lia.
  cbn [negb]. rewrite list_range_error_none by lia.
  destruct (decide _) as [He|_].
  { exfalso. apply (prefix_mask_nonempty _ h n Hn Hn1) in He; [exact He | lia | exact H0]. }
  cbn zeta.
  destruct Hnice as [Hle| ->].
  - destruct (Z.ltb_spec 10 (p_nice i)); [lia|]. reflexivity.
  - rewrite andb_false_r. reflexivity.
Qed.

Lemma cpu_limit_succeeds_witness :
  (adjust_cpu_limit 7%nat 50 niced_host).1 = Ok tt.
Proof.
  apply (cpu_limit_succeeds niced_host 7%nat 50 8
           (ProcInfo Running 0 (list_to_set (py_range 4)) 10
                     (2 ^ 64 - 1, 2 ^ 64 - 1)));
    [reflexivity | reflexivity | lia | lia | lia | reflexivity
    | vm_compute; discriminate | vm_compute; reflexivity | left; cbn; lia].
Defined.

(** X7: the two ends of the percent range, where the interpreter has memory
    for a list of all the CPUs: a ceiling of 0 percent asks for CPU 0 alone
    (never for no CPU), which leaves the process CPU 0 if that CPU is
    permitted to it and is refused, changing nothing, if it is not; a
    ceiling of 100 percent leaves the process every CPU it may have. *)
Theorem cpu_limit_range_ends
    (h : Host) (process : pid) (n : Z) (i : proc_info) :
  procs h !! process = Some i → cpu_count h = Some n → 1 <= n < 2 ^ 47 →
  affinity_api h = true → n <= list_capacity h →
  (0%nat ∈ cpuset h →
   p_affinity <$> procs (adjust_cpu_limit process 0 h).2 !! process
   = Some {[ 0%nat ]}) ∧
  (0%nat ∉ cpuset h →
   adjust_cpu_limit process 0 h = (Raise (ValueError "invalid CPU"), h)) ∧
  (eligible h ≠ ∅ →
   p_affinity <$> procs (adjust_cpu_limit process 100 h).2 !! process
   = Some (eligible h)).
Proof.
  intros Hi Hn Hn1 Hapi Hcap.
  assert (H0 : num_cores n 0 = Some 1).
  { rewrite num_cores_floor by lia. rewrite Z.mul_0_r. reflexivity. }
  assert (H100 : num_cores n 100 = Some n).
  { rewrite num_cores_floor by lia. rewrite Z.div_mul by lia.
    rewrite Z.max_r by lia. reflexivity. }
  assert (Hm100 : prefix_mask n h = eligible h).
  { apply set_eq. intros c.
    rewrite (elem_of_prefix_mask c n h n Hn), (elem_of_eligible c h n Hn). tauto. }
  rewrite !adjust_cpu_limit_unfold, Hi, Hn, H0, H100, Hapi. cbn [negb].
  rewrite !list_range_error_none by lia.
  split; [|split].
  - intros Hin.
    assert (Hm0 : prefix_mask 1 h = {[ 0%nat ]}).
    { apply set_eq. intros c.
      rewrite (elem_of_prefix_mask c 1 h n Hn), elem_of_singleton.
      split; [intros (Hc & _); lia|]. intros ->. split; [lia|split; [lia|exact Hin]]. }
    destruct (decide _) as [He|_]; [rewrite Hm0 in He; set_solver|].
    cbn zeta. destruct (_ && _); cbn [snd procs set_procs];
      rewrite lookup_insert_eq; cbn; rewrite Hm0; reflexivity.
  - intros Hout.
    destruct (decide _) as [_|Hne]; [reflexivity|].
    exfalso. apply Hne. apply set_eq. intros c.
    rewrite (elem_of_prefix_mask c 1 h n Hn). split; [|set_solver].
    intros (Hc & _ & Hin). replace c with 0%nat in Hin by lia. contradiction.
  - intros Hne. rewrite Hm100.
    destruct (decide _) as [He|_]; [contradiction|].
    cbn zeta. destruct (_ && _); cbn [snd procs set_procs];
      rewrite lookup_insert_eq; reflexivity.
Qed.

Lemma cpu_limit_range_ends_witness :
  p_affinity <$> procs (adjust_cpu_limit 7%nat 0 niced_host).2 !! 7%nat
  = Some {[ 0%nat ]}.
Proof.
  destruct (cpu_limit_range_ends niced_host 7%nat 8
              (ProcInfo Running 0 (list_to_set (py_range 4)) 10
                        (2 ^ 64 - 1, 2 ^ 64 - 1)))
    as (H0 & _); [reflexivity | reflexivity | lia | reflexivity
                 | vm_compute; discriminate |].
  apply H0. vm_compute. reflexivity.
Defined.

(* ===================================================================== *)
(** ** Further properties of the running system *)
(* ===================================================================== *)

Lemma adjust_memory_limit_limits p v h r h' :
  adjust_memory_limit p v h = (r, h') →
  hard_limit h' = hard_limit h ∧
  (soft_limit h' = soft_limit h ∨ soft_limit h' = rlim2py v).
Proof.
  rewrite adjust_memory_limit_unfold. unfold hard_limit, soft_limit.
  repeat case_match; intros [= <- <-]; auto.
  cbn [rlim_cur rlim_max set_rlimit]. split; [apply rlim2py_mod|].
  right. apply rlim2py_mod.
Qed.

Lemma adjust_cpu_limit_rlimits p v h :
  rlim_cur (adjust_cpu_limit p v h).2 = rlim_cur h ∧
  rlim_max (adjust_cpu_limit p v h).2 = rlim_max h.
Proof. rewrite adjust_cpu_limit_unfold. repeat case_match; auto. Qed.

Lemma Popen_rlimits argv h :
  rlim_cur (Popen argv h).2 = rlim_cur h ∧ rlim_max (Popen argv h).2 = rlim_max h.
Proof. rewrite Popen_unfold. repeat case_match; auto. Qed.

(** What a step does to the limits of the supervisor: only a call of the
    memory actuator changes them. *)
Lemma step_rlimits t s s' :
  step t s = Some s' →
  (rlim_cur (host s') = rlim_cur (host s) ∧ rlim_max (host s') = rlim_max (host s)) ∨
  (∃ p m c g r, mon s = MonMem m c g ∧
                adjust_memory_limit p m (host s) = (r, host s')).
Proof.
  intros Ht. step_inv Ht; auto.
  all: try match goal with
           | E : Popen ?a ?h = (_, ?h') |- _ =>
               left; pose proof (Popen_rlimits a h) as H; rewrite E in H; exact H
           | E : adjust_cpu_limit ?p ?v ?h = (_, ?h') |- _ =>
               left; pose proof (adjust_cpu_limit_rlimits p v h) as H;
               rewrite E in H; exact H
           | E : adjust_memory_limit _ _ _ = _ |- _ => right; eauto 10
           end.
Qed.

(** X8: through every execution the hard limit of the supervisor is the one
    it started with, and its soft limit is the one it started with or the
    ceiling of 1 GiB: the program never raises or lowers the hard limit. *)
Theorem limits_through_execution (h : Host) (argv : list string) (s : Sys) :
  reachable h argv s →
  hard_limit (host s) = hard_limit h ∧
  (soft_limit (host s) = soft_limit h ∨ soft_limit (host s) = get_max_memory).
Proof.
  apply (reachable_ind (λ s,
    hard_limit (host s) = hard_limit h ∧
    (soft_limit (host s) = soft_limit h ∨ soft_limit (host s) = get_max_memory))).
  { auto. }
  clear s. intros t s s' Hs [Hhard Hsoft] Ht.
  pose proof (inv_ceilings _ (reachable_inv _ _ _ Hs)) as Hc.
  destruct (step_rlimits _ _ _ Ht) as [[Hcur Hmax]|(p & m & c & g & r & Hmon & Hmem)].
  - unfold hard_limit, soft_limit in *. rewrite Hcur, Hmax. auto.
  - rewrite Hmon in Hc. destruct Hc as (-> & _ & _).
    destruct (adjust_memory_limit_limits _ _ _ _ _ Hmem) as [Hh [Hs1|Hs1]].
    + rewrite Hh, Hs1. auto.
    + rewrite Hh, Hs1. auto.
Qed.

Lemma limits_through_execution_witness :
  ∃ s, exec [TMain; TMain; TMain; TMon; TMon; TMon; TMon; TMon] (init linux_host ["job"])
       = Some s ∧
       hard_limit (host s) = RLIM_INFINITY ∧ soft_limit (host s) = get_max_memory.
Proof.
  run_state Hs. exists s. run_fact Hs (λ s, soft_limit (host s)).
  destruct (limits_through_execution linux_host ["job"] s) as [Hhard _];
    [eexists; exact Hs|].
  split; [reflexivity|]. split; [rewrite Hhard; reflexivity | exact Hf].
Defined.

(** X9: the child is created first: as long as the monitor thread has not
    been started the limits of the supervisor are the ones it started with
    and no monitor event has been recorded, so the child is spawned before
    any ceiling is applied; and once the thread runs, the child it is given
    has been spawned. *)
Theorem child_created_first (h : Host) (argv : list string) (s : Sys) :
  reachable h argv s →
  (mon s = MonNotStarted →
   rlim_cur (host s) = rlim_cur h ∧ rlim_max (host s) = rlim_max h ∧
   mon_events (log s) = []) ∧
  (mon s ≠ MonNotStarted → ∃ p, proc s = Some p ∧ EvSpawn p ∈ log s).
Proof.
  intros Hs.
  assert (H : (mon s = MonNotStarted →
               rlim_cur (host s) = rlim_cur h ∧ rlim_max (host s) = rlim_max h ∧
               mon_events (log s) = []) ∧
              (∀ p, proc s = Some p → EvSpawn p ∈ log s)).
  { revert s Hs. apply reachable_ind.
    { cbn. split; [auto|discriminate]. }
    intros t s s' _ [Hpre Hspawn] Ht.
    step_inv Ht; (split; [intros Hm; try discriminate Hm; specialize (Hpre Hm) | intros q Hq]);
      rewrite ?mon_events_snoc, ?elem_of_snoc; cbn [is_mon_event];
      rewrite ?app_nil_r; auto.
    - pose proof (Popen_rlimits argv0 (host s)) as Hr. rewrite E0 in Hr.
      cbn [snd] in Hr. destruct Hr as [-> ->]. exact Hpre.
    - injection Hq as <-. auto.
    - pose proof (Popen_rlimits argv0 (host s)) as Hr. rewrite E0 in Hr.
      cbn [snd] in Hr. destruct Hr as [-> ->]. exact Hpre. }
  destruct H as [Hpre Hspawn]. split; [exact Hpre|].
  intros Hm.
  destruct (reachable_inv _ _ _ Hs) as [Hst _ _ Hpr _ _ _ _ _ _].
  destruct (Hpr (or_intror (or_intror (Hst Hm)))) as [p Hp].
  exists p. auto.
Qed.

Lemma child_created_first_witness :
  ∃ s, exec [TMain] (init capped_host ["job"]) = Some s ∧
       rlim_cur (host s) = rlim_cur capped_host.
Proof.
  run_state Hs. exists s. run_fact Hs mon.
  destruct (child_created_first capped_host ["job"] s) as [Hpre _];
    [eexists; exact Hs|].
  destruct (Hpre Hf) as (Hc & _). auto.
Defined.

Lemma mon_not_started_step t s s' :
  step t s = Some s' → mon s' = MonNotStarted → mon s = MonNotStarted.
Proof. intros Ht. step_inv Ht; (discriminate || auto). Qed.

(** Until the monitor thread is started the limits of the supervisor are
    the ones it started with. *)
Lemma limits_before_monitor h argv s :
  reachable h argv s → mon s = MonNotStarted →
  rlim_cur (host s) = rlim_cur h ∧ rlim_max (host s) = rlim_max h.
Proof.
  apply (reachable_ind (λ s, mon s = MonNotStarted →
    rlim_cur (host s) = rlim_cur h ∧ rlim_max (host s) = rlim_max h)); [auto|].
  clear s. intros t s s' _ IH Ht Hm.
  pose proof (mon_not_started_step _ _ _ Ht Hm) as Hm0.
  destruct (step_rlimits _ _ _ Ht) as [[-> ->]|(p & m & c & g & r & Hmon & _)];
    [auto | congruence].
Qed.

Lemma Popen_ok_rlimit argv h p h' i :
  Popen argv h = (Ok p, h') → procs h' !! p = Some i →
  p_rlimit i = (rlim_cur h, rlim_max h).
Proof.
  rewrite Popen_unfold. destruct argv as [|name args]; [discriminate|].
  destruct (exes h name); try discriminate. cbn zeta. intros [= <- <-].
  cbn [procs set_next_pid set_procs]. rewrite lookup_insert_eq. intros [= <-]. reflexivity.
Qed.

(** The CPU actuator leaves the limits of every process alone. *)
Lemma adjust_cpu_limit_child_limits p v h q :
  p_rlimit <$> procs (adjust_cpu_limit p v h).2 !! q = p_rlimit <$> procs h !! q.
Proof.
  rewrite adjust_cpu_limit_unfold.
  destruct (procs h !! p) as [i|] eqn:Hi; [|reflexivity].
  repeat case_match; try reflexivity; cbn [snd procs set_procs];
    (destruct (decide (p = q)) as [<-|Hne];
     [rewrite lookup_insert_eq, Hi | rewrite lookup_insert_ne by assumption]);
    reflexivity.
Qed.

Lemma mon_step_child_limits s s1 q :
  monitor_memory_and_cpu_step s = Some s1 →
  p_rlimit <$> procs (host s1) !! q = p_rlimit <$> procs (host s) !! q.
Proof.
  intros Ht. thread_inv Ht; try reflexivity.
  all: match goal with
       | E : adjust_memory_limit ?p ?v ?h = (_, ?h') |- _ =>
           pose proof (adjust_memory_limit_procs p v h) as H; rewrite E in H;
           cbn [snd] in H; rewrite H; reflexivity
       | E : adjust_cpu_limit ?p ?v ?h = (_, ?h') |- _ =>
           pose proof (adjust_cpu_limit_child_limits p v h q) as H; rewrite E in H;
           exact H
       | E : adjust_gpu_limit ?p ?v ?h = _ |- _ => injection E as _ <-; reflexivity
       end.
Qed.

(** X1: the memory ceiling never reaches the child.  The child is created
    before the monitor thread applies a ceiling, and the ceiling is set on
    the supervisor itself: in every state of every execution the
    address-space limits of the child are the ones the supervisor started
    with, whatever the limits of the supervisor have become. *)
Theorem child_limits_untouched
    (h : Host) (argv : list string) (s : Sys) (p : pid) (i : proc_info) :
  reachable h argv s → proc s = Some p → procs (host s) !! p = Some i →
  p_rlimit i = (rlim_cur h, rlim_max h).
Proof.
  intros Hs. revert p i.
  apply (reachable_ind (λ s, ∀ p i,
    proc s = Some p → procs (host s) !! p = Some i →
    p_rlimit i = (rlim_cur h, rlim_max h))) with (h := h) (argv := argv);
    [cbn; discriminate | | exact Hs].
  clear s Hs. intros t s s' Hs IH Ht p i.
  destruct t; cbn [step] in Ht.
  - (* run *)
    pose proof (inv_started _ (reachable_inv _ _ _ Hs)) as Hst.
    thread_inv Ht; cbn [procs set_procs]; eauto.
    + (* the child is created with the limits the supervisor has *)
      intros [= <-] Hi.
      rewrite (Popen_ok_rlimit _ _ _ _ _ E0 Hi).
      destruct (limits_before_monitor h argv s Hs) as [-> ->]; [|reflexivity].
      destruct (mon s) eqn:Hm; try reflexivity;
        (destruct Hst as [H|[H|[H|H]]]; [discriminate|..]; discriminate H).
    + rewrite (Popen_raise_host _ _ _ _ E0). eauto.
    + intros [= <-] Hi. rewrite lookup_delete_eq in Hi. discriminate Hi.
  - (* the monitor thread *)
    destruct (mon_step_log _ _ Ht) as [Hproc _].
    pose proof (mon_step_child_limits _ _ p Ht) as Hl.
    rewrite Hproc. intros Hp Hi. rewrite Hi in Hl. cbn in Hl.
    destruct (procs (host s) !! p) as [i0|] eqn:Hi0; [|discriminate Hl].
    injection Hl as ->. eauto.
  - (* a process ends *)
    thread_inv Ht. cbn [procs set_procs]. intros Hp Hi.
    destruct (decide (p0 = p)) as [->|Hne].
    + rewrite lookup_insert_eq in Hi. injection Hi as <-.
      cbn [p_rlimit with_state]. eauto.
    + rewrite lookup_insert_ne in Hi by assumption. eauto.
Qed.

Lemma child_limits_untouched_witness :
  ∃ s i,
    exec [TMain; TMain; TMain; TMon; TMon; TMon; TMon; TMon] (init linux_host ["job"])
    = Some s ∧
    rlim_cur (host s) = get_max_memory ∧
    procs (host s) !! 100%nat = Some i ∧
    p_rlimit i = (rlim_cur linux_host, rlim_max linux_host).
Proof.
  run_state Hs. exists s.
  run_fact Hs (λ s, rlim_cur (host s)). run_fact Hs proc.
  destruct (procs (host s) !! 100%nat) as [i|] eqn:Hi.
  2: { run_fact Hs (λ s, bool_decide (is_Some (procs (host s) !! 100%nat))).
       rewrite Hi in Hf1. apply bool_decide_eq_true in Hf1.
       destruct Hf1 as [? Hf1]. discriminate Hf1. }
  exists i. repeat split; [exact Hf|].
  apply (child_limits_untouched linux_host ["job"] s 100%nat i);
    [eexists; exact Hs | exact Hf0 | exact Hi].
Defined.

Lemma mon_steps_cons t sched :
  mon_steps (t :: sched) = ((if is_mon_tid t then 1 else 0) + mon_steps sched)%nat.
Proof. unfold mon_steps. destruct t; reflexivity. Qed.

Lemma step_after_set_left t s s' :
  inv s → flag s = true → step t s = Some s' →
  ((if is_mon_tid t then 1 else 0) + steps_left (mon s') ≤ steps_left (mon s))%nat.
Proof.
  intros [_ Hfl _ _ _ _ _ _ _ _] Hflag Ht.
  apply Hfl in Hflag as Hmain.
  step_inv Ht;
    try (destruct Hmain as [Hm|Hm]; discriminate Hm);
    try discriminate Hflag;
    cbn [is_mon_tid steps_left]; lia.
Qed.

(** X10: the flag takes effect within one turn of the loop: in whatever way
    the threads interleave after the flag is set, the monitor thread
    executes at most the statements left of the turn in progress and the
    read of the flag - eight or fewer - and if it executes them all it is
    over. *)
Theorem monitor_stops_within_one_cycle
    (h : Host) (argv : list string) (sched : list tid) (s s' : Sys) :
  reachable h argv s → flag s = true → exec sched s = Some s' →
  (mon_steps sched + steps_left (mon s') ≤ steps_left (mon s))%nat ∧
  (mon_steps sched ≤ 8)%nat.
Proof.
  intros Hs Hflag Hs'.
  assert (H : (mon_steps sched + steps_left (mon s') ≤ steps_left (mon s))%nat).
  { pose proof (reachable_inv _ _ _ Hs) as Hinv. clear Hs.
    revert s Hinv Hflag Hs'. induction sched as [|t sched IH]; intros s Hinv Hflag Hs'.
    - cbn in Hs'. injection Hs' as <-. cbn. lia.
    - cbn [exec] in Hs'. destruct (step t s) as [s1|] eqn:Ht; [|discriminate Hs'].
      cbn [mbind option_bind] in Hs'.
      pose proof (step_after_set_left _ _ _ Hinv Hflag Ht) as H1.
      destruct (step_after_set _ _ _ Hinv Hflag Ht) as (Hf1 & _).
      pose proof (IH s1 (inv_step _ _ _ Hinv Ht) Hf1 Hs') as H2.
      rewrite mon_steps_cons. lia. }
  split; [exact H|].
  assert (steps_left (mon s) ≤ 8)%nat by (destruct (mon s); cbn; lia). lia.
Qed.

Lemma monitor_stops_within_one_cycle_witness :
  ∃ s s',
    exec [TMain; TMain; TMain; TMon; TMon; TMon; TChild 100%nat; TMain; TMain]
         (init linux_host ["job"]) = Some s ∧
    flag s = true ∧ mon s = MonGetGpu get_max_memory get_max_cpu ∧
    exec [TMon; TMon; TMon; TMain] s = Some s' ∧
    (steps_left (mon s') ≤ 3)%nat.
Proof.
  run_state Hs. exists s.
  destruct (exec [TMon; TMon; TMon; TMain] s) as [s'|] eqn:Hs'.
  2: { assert (H : exec ([TMain; TMain; TMain; TMon; TMon; TMon; TChild 100%nat;
                          TMain; TMain] ++ [TMon; TMon; TMon; TMain])
                        (init linux_host ["job"]) = None)
         by (rewrite exec_app, Hs; exact Hs').
       vm_compute in H. discriminate H. }
  exists s'. run_fact Hs flag. run_fact Hs mon.
  destruct (monitor_stops_within_one_cycle linux_host ["job"]
              [TMon; TMon; TMon; TMain] s s') as [Hleft _];
    [eexists; exact Hs | exact Hf | exact Hs' |].
  assert (Hn : mon_steps [TMon; TMon; TMon; TMain] = 3%nat) by reflexivity.
  rewrite Hn, Hf0 in Hleft. cbn [steps_left] in Hleft.
  repeat split; auto. lia.
Defined.

Lemma can_finish_run s s1 : run_step s = Some s1 → can_finish s1 → can_finish s.
Proof.
  intros Ht (sched & s' & Hs' & Hm & Hn). exists (TMain :: sched), s'.
  rewrite (exec_cons TMain sched s s1 Ht), mon_steps_cons. auto.
Qed.

Lemma can_finish_child p s s1 : child_step p s = Some s1 → can_finish s1 → can_finish s.
Proof.
  intros Ht (sched & s' & Hs' & Hm & Hn). exists (TChild p :: sched), s'.
  rewrite (exec_cons (TChild p) sched s s1 Ht), mon_steps_cons. auto.
Qed.

Lemma can_finish_returned s v : main s = MainReturned v → can_finish s.
Proof.
  intros Hm. eapply can_finish_run; [unfold run_step; rewrite Hm; reflexivity|].
  eexists [], _. split; [reflexivity|]. split; reflexivity.
Qed.

Lemma can_finish_set s : main s = MainSet → can_finish s.
Proof.
  intros Hm. eapply can_finish_run; [unfold run_step; rewrite Hm; reflexivity|].
  eapply can_finish_returned. reflexivity.
Qed.

Lemma can_finish_wait s p :
  main s = MainWait → proc s = Some p → is_Some (procs (host s) !! p) →
  can_finish s.
Proof.
  intros Hm Hp [i Hi]. destruct (p_state i) as [|code] eqn:Hst.
  - eapply can_finish_child.
    { unfold child_step. rewrite Hi. cbn [mbind option_bind]. rewrite Hst. reflexivity. }
    eapply can_finish_run.
    { unfold run_step. cbn [main proc host]. rewrite Hm, Hp. cbn [mbind option_bind procs set_procs].
      rewrite lookup_insert_eq. cbn [mbind option_bind p_state with_state]. reflexivity. }
    eapply can_finish_set. reflexivity.
  - eapply can_finish_run.
    { unfold run_step. rewrite Hm, Hp. cbn [mbind option_bind]. rewrite Hi.
      cbn [mbind option_bind]. rewrite Hst. reflexivity. }
    eapply can_finish_set. reflexivity.
Qed.

Lemma can_finish_thread s p :
  main s = MainThread → proc s = Some p → is_Some (procs (host s) !! p) →
  can_finish s.
Proof.
  intros Hm Hp Hi. eapply can_finish_run; [unfold run_step; rewrite Hm; reflexivity|].
  eapply can_finish_wait; [reflexivity | exact Hp | exact Hi].
Qed.

Lemma can_finish_event s p :
  main s = MainEvent → proc s = Some p → is_Some (procs (host s) !! p) →
  can_finish s.
Proof.
  intros Hm Hp Hi. eapply can_finish_run; [unfold run_step; rewrite Hm; reflexivity|].
  eapply can_finish_thread; [reflexivity | exact Hp | exact Hi].
Qed.

Lemma Popen_ok_present argv h p h' :
  Popen argv h = (Ok p, h') → is_Some (procs h' !! p).
Proof.
  rewrite Popen_unfold. repeat case_match; try discriminate.
  cbn zeta. intros [= <- <-]. cbn [procs set_next_pid set_procs].
  rewrite lookup_insert_eq. eauto.
Qed.

(** Until [proc.wait()] has returned the child is in the process table:
    no step of the monitor or of another process removes it. *)
Lemma child_present h argv s :
  reachable h argv s →
  main s = MainEvent ∨ main s = MainThread ∨ main s = MainWait →
  ∃ p, proc s = Some p ∧ is_Some (procs (host s) !! p).
Proof.
  apply (reachable_ind (λ s,
    main s = MainEvent ∨ main s = MainThread ∨ main s = MainWait →
    ∃ p, proc s = Some p ∧ is_Some (procs (host s) !! p))).
  { cbn. intros [|[|]]; discriminate. }
  clear s. intros t s s' _ IH Ht.
  step_inv Ht; intros Hm; try (destruct Hm as [Hm|[Hm|Hm]]; discriminate Hm);
    try (destruct (IH Hm) as (q & Hq & Hsome); exists q; split; [exact Hq|]);
    try (destruct IH as (q & Hq & Hsome); [auto|]; exists q; split; [exact Hq|]);
    try assumption.
  - eexists. split; [reflexivity|]. eapply Popen_ok_present; eauto.
  - erewrite <- fmap_is_Some, adjust_memory_limit_keeps, fmap_is_Some; eauto.
  - erewrite <- fmap_is_Some, adjust_memory_limit_keeps, fmap_is_Some; eauto.
  - erewrite <- fmap_is_Some, adjust_cpu_limit_keeps, fmap_is_Some; eauto.
  - erewrite <- fmap_is_Some, adjust_cpu_limit_keeps, fmap_is_Some; eauto.
  - cbn [procs set_procs]. apply lookup_insert_is_Some'. auto.
Qed.

(** X11: the monitor thread cannot keep [run] from finishing: when the
    child can be created, from every state of every execution - whatever
    the monitor thread has done, raised or not - steps of [run] and of the
    child alone bring the program to its exit with status 0. *)
Theorem run_can_finish
    (h h' : Host) (argv : list string) (p : pid) (s : Sys) :
  Popen argv h = (Ok p, h') → reachable h argv s →
  ∃ sched s', exec sched s = Some s' ∧ main s' = MainExited 0 ∧
              mon_steps sched = 0%nat.
Proof.
  intros HP Hs. change (can_finish s).
  destruct (run_never_raises _ _ _ _ _ HP Hs) as [Hr Hx].
  pose proof (child_present _ _ _ Hs) as Hchild.
  destruct (main s) as [a| | | | |v|e|n] eqn:Hm.
  - pose proof (reachable_popen _ _ _ a Hs Hm) as ->.
    destruct (Popen_ok_exes h (host s) h' argv p
                (eq_sym (reachable_exes _ _ _ Hs)) HP) as (p' & h2 & HPs).
    eapply can_finish_run.
    { unfold run_step. rewrite Hm, HPs. reflexivity. }
    eapply can_finish_event; [reflexivity | reflexivity |].
    cbn [host]. eapply Popen_ok_present; eauto.
  - destruct Hchild as (q & Hq & Hsome); [auto|]. eapply can_finish_event; eauto.
  - destruct Hchild as (q & Hq & Hsome); [auto|]. eapply can_finish_thread; eauto.
  - destruct Hchild as (q & Hq & Hsome); [auto|]. eapply can_finish_wait; eauto.
  - apply can_finish_set. exact Hm.
  - eapply can_finish_returned. exact Hm.
  - exfalso. eapply Hr. reflexivity.
  - rewrite (Hx n eq_refl) in Hm. exists [], s. auto.
Qed.

Lemma run_can_finish_witness :
  ∃ s,
    exec [TMain; TMain; TMain; TMon; TMon; TMon; TMon; TMon]
         (init capped_host ["job"]) = Some s ∧
    mon s = MonRaised (ValueError "current limit exceeds maximum limit") ∧
    ∃ sched s', exec sched s = Some s' ∧ main s' = MainExited 0 ∧
                mon_steps sched = 0%nat.
Proof.
  run_state Hs. exists s. run_fact Hs mon.
  split; [reflexivity|]. split; [exact Hf|].
  apply (run_can_finish capped_host (Popen ["job"] capped_host).2 ["job"] 100%nat s).
  - reflexivity.
  - eexists. exact Hs.
Defined.

Lemma cycle_body_unfold p h :
  cycle_body p h =
  match adjust_memory_limit p get_max_memory h with
  | (Ok _, hm) =>
      match adjust_cpu_limit p get_max_cpu hm with
      | (Ok _, hc) => (Ok tt, hc)
      | (Raise e, hc) => (Raise e, hc)
      end
  | (Raise e, hm) => (Raise e, hm)
  end.
Proof.
  unfold cycle_body. cbn zeta. io_unfold.
  destruct (adjust_memory_limit p get_max_memory h) as [[[]|e] hm]; [|reflexivity].
  destruct (adjust_cpu_limit p get_max_cpu hm) as [[[]|e] hc]; reflexivity.
Qed.

Lemma adjust_memory_limit_ok_inv p v h hm :
  adjust_memory_limit p v h = (Ok tt, hm) →
  in_long v = true ∧ rlim_cur hm = py2rlim v ∧
  rlim_max hm = rlim_max h mod 2 ^ 64 ∧ py2rlim v <= rlim_max h mod 2 ^ 64.
Proof.
  rewrite adjust_memory_limit_unfold.
  destruct (in_long v); [|discriminate]. cbn [negb].
  destruct (Z.ltb_spec (rlim_max h mod 2 ^ 64) (py2rlim v)); [discriminate|].
  intros [= <-]. auto.
Qed.

(** On a host whose soft limit is the ceiling already, the memory actuator
    succeeds and changes nothing. *)
Lemma adjust_memory_limit_settled p v h :
  in_long v = true → rlim_cur h = py2rlim v → 0 <= rlim_max h < 2 ^ 64 →
  py2rlim v <= rlim_max h → adjust_memory_limit p v h = (Ok tt, h).
Proof.
  intros Hin Hcur Hrange Hle. rewrite adjust_memory_limit_unfold, Hin. cbn [negb].
  rewrite Z.mod_small by lia.
  destruct (Z.ltb_spec (rlim_max h) (py2rlim v)); [lia|].
  destruct h. cbn in *. subst. reflexivity.
Qed.

Lemma adjust_cpu_limit_again p v h :
  adjust_cpu_limit p v (adjust_cpu_limit p v h).2 = adjust_cpu_limit p v h.
Proof.
  rewrite (adjust_cpu_limit_unfold p v h).
  destruct (procs h !! p) as [i|] eqn:Hi.
  2: { cbn [snd]. rewrite adjust_cpu_limit_unfold, Hi. reflexivity. }
  destruct (cpu_count h) as [n|] eqn:Hc.
  2: { cbn [snd]. rewrite adjust_cpu_limit_unfold, Hi, Hc. reflexivity. }
  destruct (num_cores n v) as [k|] eqn:Hk.
  2: { cbn [snd]. rewrite adjust_cpu_limit_unfold, Hi, Hc, Hk. reflexivity. }
  destruct (affinity_api h) eqn:Hapi; cbn [negb].
  2: { cbn [snd]. rewrite adjust_cpu_limit_unfold, Hi, Hc, Hk, Hapi. reflexivity. }
  destruct (list_range_error k h) as [e|] eqn:Hl.
  { cbn [snd]. rewrite adjust_cpu_limit_unfold, Hi, Hc, Hk, Hapi, Hl. reflexivity. }
  destruct (decide (prefix_mask k h = ∅)) as [He|He].
  { cbn [snd]. rewrite adjust_cpu_limit_unfold, Hi, Hc, Hk, Hapi, Hl. cbn [negb].
    destruct (decide _); [reflexivity|contradiction]. }
  cbn zeta.
  destruct (Z.ltb_spec 10 (p_nice i)) as [Hnice|Hnice];
    [destruct (superuser h) eqn:Hsu|]; cbn [andb negb snd];
    rewrite adjust_cpu_limit_unfold;
    cbn [procs set_procs cpu_count affinity_api superuser];
    rewrite lookup_insert_eq, Hc, Hk, Hapi; cbn [negb];
    change (list_range_error k (set_procs ?ps h)) with (list_range_error k h);
    rewrite Hl;
    change (prefix_mask k (set_procs ?ps h)) with (prefix_mask k h);
    (destruct (decide (prefix_mask k h = ∅)); [contradiction|]);
    cbn zeta; cbn [p_nice with_nice with_affinity]; rewrite ?Hsu; cbn [andb negb].
  - rewrite Z.ltb_irrefl. cbn [andb]. rewrite insert_insert_eq. reflexivity.
  - destruct (Z.ltb_spec 10 (p_nice i)); [|lia]. cbn [andb].
    rewrite insert_insert_eq. reflexivity.
  - rewrite Z.ltb_irrefl. cbn [andb]. rewrite insert_insert_eq. reflexivity.
Qed.

(** The actuator calls of a turn that succeeded succeed again on the host
    they left, and leave it as it is. *)
Lemma cycle_body_settled p h h1 :
  cycle_body p h = (Ok tt, h1) → cycle_body p h1 = (Ok tt, h1).
Proof.
  rewrite !cycle_body_unfold.
  destruct (adjust_memory_limit p get_max_memory h) as [[[]|e1] hm] eqn:E1;
    [|discriminate].
  destruct (adjust_cpu_limit p get_max_cpu hm) as [[[]|e2] hc] eqn:E2;
    [|discriminate].
  intros [= <-].
  destruct (adjust_memory_limit_ok_inv _ _ _ _ E1) as (Hin & Hcur & Hmax & Hle).
  destruct (adjust_cpu_limit_rlimits p get_max_cpu hm) as [Hc1 Hm1].
  rewrite E2 in Hc1, Hm1. cbn [snd] in Hc1, Hm1.
  pose proof (Z.mod_pos_bound (rlim_max h) (2 ^ 64) ltac:(lia)) as Hb.
  rewrite (adjust_memory_limit_settled p get_max_memory hc) by
    (rewrite ?Hc1, ?Hm1, ?Hmax; (assumption || lia)).
  pose proof (adjust_cpu_limit_again p get_max_cpu hm) as Hagain.
  rewrite E2 in Hagain. cbn [snd] in Hagain. rewrite Hagain. reflexivity.
Qed.

(** A turn of the loop in which no actuator raises, run without another
    thread in between, leaves the host its actuator calls leave. *)
Lemma full_cycle_host s p h1 :
  mon s = MonCheck → flag s = false → is_exited (main s) = false →
  proc s = Some p → cycle_body p (host s) = (Ok tt, h1) →
  exec (replicate 8 TMon) s
  = Some (MkSys h1 (log s ++ cycle_events) false (Some p) (main s) MonCheck).
Proof.
  intros Hmon Hflag Hmain Hproc. rewrite cycle_body_unfold.
  destruct (adjust_memory_limit p get_max_memory (host s)) as [[[]|e1] hm] eqn:E1;
    [|discriminate].
  destruct (adjust_cpu_limit p get_max_cpu hm) as [[[]|e2] hc] eqn:E2;
    [|discriminate].
  intros [= <-]. cbn [replicate].
  do 8 (erewrite exec_cons;
        [| cbn [step]; unfold monitor_memory_and_cpu_step, call;
           cbn [main mon flag proc host log];
           rewrite ?Hmain, ?Hmon, ?Hflag, ?Hproc; cbn [mbind option_bind];
           rewrite ?E1, ?E2, ?adjust_gpu_limit_ok; reflexivity ]).
  cbn [exec]. rewrite <- !app_assoc. reflexivity.
Qed.

(** X12: the loop reaches a steady state after one turn: when a turn of the
    loop has succeeded, the next turn, run on the host the first one left,
    succeeds as well and changes nothing - the limits, the affinity and the
    niceness stay as the first turn set them. *)
Theorem second_cycle_changes_nothing (s : Sys) (p : pid) (h1 : Host) :
  mon s = MonCheck → flag s = false → is_exited (main s) = false →
  proc s = Some p → cycle_body p (host s) = (Ok tt, h1) →
  ∃ s1 s2,
    exec (replicate 8 TMon) s = Some s1 ∧ host s1 = h1 ∧
    exec (replicate 8 TMon) s1 = Some s2 ∧ host s2 = h1 ∧
    mon s2 = MonCheck ∧ log s2 = (log s ++ cycle_events) ++ cycle_events.
Proof.
  intros Hmon Hflag Hmain Hproc Hbody.
  eexists _, _. split; [apply (full_cycle_host s p h1); assumption|].
  split; [reflexivity|].
  split; [apply (full_cycle_host _ p h1); try reflexivity; try assumption|].
  - cbn [host]. apply cycle_body_settled with (h := host s). exact Hbody.
  - repeat split.
Qed.

Lemma second_cycle_changes_nothing_witness :
  ∃ s s1 s2,
    exec [TMain; TMain; TMain] (init linux_host ["job"]) = Some s ∧
    exec (replicate 8 TMon) s = Some s1 ∧
    exec (replicate 8 TMon) s1 = Some s2 ∧
    host s2 = host s1.
Proof.
  run_state Hs. exists s.
  run_fact Hs mon. run_fact Hs flag. run_fact Hs (λ s, is_exited (main s)).
  run_fact Hs proc.
  run_fact Hs (λ s, (cycle_body 100%nat (host s)).1).
  destruct (second_cycle_changes_nothing s 100%nat (cycle_body 100%nat (host s)).2
              Hf Hf0 Hf1 Hf2)
    as (s1 & s2 & H1 & Hh1 & H2 & Hh2 & _).
  { rewrite <- Hf3. apply surjective_pairing. }
  exists s1, s2. repeat split; auto. congruence.
Defined.
